(** * YiThume: order clustering, batch assignment and earnings split

    A shallow embedding of the dispatch engine of [yithume-lite-pro.js], in
    the two variants of the file the repository holds: they differ, for
    this engine, in the filter [autoAssign] puts on the orders.

    Conventions of the embedding
    - a JavaScript number holding a currency amount is an exact rational
      ([Q]); [Math.round] is [Math_round], the floor of [x + 1/2];
      counts, array indices and instants (milliseconds) are integers;
      the earnings split is given a second time in the arithmetic of a
      JavaScript number, IEEE 754 binary64 (module [Double]), where the
      two are compared;
    - a JavaScript string is a [string] of ASCII characters; an absent
      property is [None];
    - an array kept in [localStorage] is a [list], read and written as a
      whole; an assignment to a property of [arr[i]] is an [alter] at [i];
    - an object used as a dictionary is an association list in insertion
      order, which is the order [Object.keys] enumerates keys that are not
      array indices; the keys, cluster keys with their ["::"] and driver
      identifiers with their ["DRV-"], are no property names that an
      object inherits;
    - [Date.now()], [new Date()] and [Math.random()] are read from an
      environment record; the event [yt-orders-updated] carries nothing
      and is left out. *)

From Stdlib Require Import Ascii String QArith Qround Lqa.
From Stdlib Require Import Uint63 PrimFloat SpecFloat FloatOps.
From stdpp Require Import base numbers list strings pretty.

Open Scope Z_scope.

(** ** Numbers *)

(** [Math.round(x)]: the nearest integer, a tie going up. *)
Definition Math_round (x : Q) : Z := Qfloor (x + (1 # 2)).

(** [Math.ceil(x)] *)
Definition Math_ceil (x : Q) : Z := Qceiling x.

(** What "round-half-up to the nearest integer" asks of a result [z]. *)
Definition round_half_up (x : Q) (z : Z) : Prop :=
  (inject_Z z - (1 # 2) <= x)%Q ∧ (x < inject_Z z + (1 # 2))%Q.

(** ** Configuration *)

Module CONFIG.
Definition DRIVER_SHARE_FIRST : Q := 1.
Definition DRIVER_SHARE_NEXT : Q := 2 # 5.
End CONFIG.

(** ** Earnings split *)

Record Earnings := mkEarnings {
  driverTotal : Z;
  platformDeliveryMargin : Z
}.

Definition computeClusterEarnings (n : Z) (feeEach : Q) : Earnings :=
  let first := (feeEach * CONFIG.DRIVER_SHARE_FIRST)%Q in
  let rest := (inject_Z (Z.max 0 (n - 1)) * feeEach * CONFIG.DRIVER_SHARE_NEXT)%Q in
  let driverTotal := Math_round (first + rest) in
  let allFees := (inject_Z n * feeEach)%Q in
  let platformDeliveryMargin := Math_round (allFees - inject_Z driverTotal) in
  mkEarnings driverTotal platformDeliveryMargin.

(** ** The earnings split in binary64

    A JavaScript number is an IEEE 754 double: a [float], with the
    primitive operations on it, which round to nearest, ties to even.
    [computeClusterEarnings] above is the same computation in exact
    arithmetic. *)

Module Double.

(** The double of an integer, exact for a magnitude up to [2^53]. *)
Definition of_Z (z : Z) : float :=
  if z <? 0 then PrimFloat.opp (PrimFloat.of_uint63 (Uint63.of_Z (- z)))
  else PrimFloat.of_uint63 (Uint63.of_Z z).

(** The value [(-1)^s * m * 2^e] of a finite double. *)
Definition value (s : bool) (m : positive) (e : Z) : Q :=
  let v := if 0 <=? e then inject_Z (Z.pos m * 2 ^ e)
           else Z.pos m # Z.to_pos (2 ^ (- e)) in
  if s then (- v)%Q else v.



(** [Math.round(x)]: [x] itself when it is not finite or is a zero or has
    no fraction (as every double from [2^52] on in magnitude); otherwise
    the integer nearest to its value, a tie going up, and a zero result
    with the sign of [x]. *)
Definition Math_round (x : float) : float :=
  match Prim2SF x with
  | S754_finite s m e =>
      if 0 <=? e then x
      else let z := Qfloor (value s m e + (1 # 2)) in
           if z =? 0 then (if s then PrimFloat.neg_zero else PrimFloat.zero)
           else of_Z z
  | S754_zero _ | S754_infinity _ | S754_nan => x
  end.

(** [Math.max(a, b)] *)
Definition Math_max (a b : float) : float :=
  if PrimFloat.is_nan a || PrimFloat.is_nan b then PrimFloat.nan
  else if PrimFloat.ltb a b then b
  else if PrimFloat.ltb b a then a
  else if PrimFloat.get_sign a then b else a.

(** [CONFIG.DRIVER_SHARE_FIRST], [1.00]. *)
Definition DRIVER_SHARE_FIRST : float := 1%float.

(** [CONFIG.DRIVER_SHARE_NEXT], [0.40]: the double nearest to two fifths. *)
Definition DRIVER_SHARE_NEXT : float := 0x1.999999999999ap-2%float.

Record Earnings := mkEarnings {
  driverTotal : float;
  platformDeliveryMargin : float
}.

Definition computeClusterEarnings (n feeEach : float) : Earnings :=
  let first := PrimFloat.mul feeEach DRIVER_SHARE_FIRST in
  let rest :=
    PrimFloat.mul
      (PrimFloat.mul (Math_max PrimFloat.zero (PrimFloat.sub n PrimFloat.one)) feeEach)
      DRIVER_SHARE_NEXT in
  let driverTotal := Math_round (PrimFloat.add first rest) in
  let allFees := PrimFloat.mul n feeEach in
  let platformDeliveryMargin := Math_round (PrimFloat.sub allFees driverTotal) in
  mkEarnings driverTotal platformDeliveryMargin.


End Double.


(** ** Strings

    The text operations of [clusterKey] and of the identifier builders, over
    ASCII text: [\s] is tab, line feed, vertical tab, form feed, carriage
    return and space; [toLowerCase] maps [A-Z] to [a-z]. *)

Definition is_space (c : ascii) : bool :=
  let n := N_of_ascii c in
  (((9 <=? n) && (n <=? 13)) || (n =? 32))%N.

Definition lower_char (c : ascii) : ascii :=
  let n := N_of_ascii c in
  if ((65 <=? n) && (n <=? 90))%N then ascii_of_N (n + 32) else c.

(** [s.toLowerCase()] *)
Fixpoint toLowerCase (s : string) : string :=
  match s with
  | EmptyString => EmptyString
  | String c s' => String (lower_char c) (toLowerCase s')
  end.

(** [s.replace(/\s+/g, " ")]: [in_run] tells that the previous character
    belonged to the run of white space already replaced. *)
Fixpoint replace_ws_from (in_run : bool) (s : string) : string :=
  match s with
  | EmptyString => EmptyString
  | String c s' =>
      if is_space c
      then if in_run then replace_ws_from true s'
           else String " " (replace_ws_from true s')
      else String c (replace_ws_from false s')
  end.

Definition replace_ws (s : string) : string := replace_ws_from false s.

Fixpoint trimStart (s : string) : string :=
  match s with
  | EmptyString => EmptyString
  | String c s' => if is_space c then trimStart s' else s
  end.

Fixpoint trimEnd (s : string) : string :=
  match s with
  | EmptyString => EmptyString
  | String c s' =>
      match trimEnd s' with
      | EmptyString => if is_space c then EmptyString else String c EmptyString
      | t => String c t
      end
  end.

(** [s.trim()] *)
Definition trim (s : string) : string := trimEnd (trimStart s).

(** [s.slice(-n)]: the last [n] characters, the whole of a shorter [s]. *)
Definition slice_last (n : nat) (s : string) : string :=
  String.substring (String.length s - n) n s.

Fixpoint repeat_char (n : nat) (c : ascii) : string :=
  match n with
  | O => EmptyString
  | S n' => String c (repeat_char n' c)
  end.

(** [s.padStart(n, c)] for a one-character filler. *)
Definition padStart (n : nat) (c : ascii) (s : string) : string :=
  repeat_char (n - String.length s) c +:+ s.

(** Truthiness of an optional string property: absent and empty are falsy. *)
Definition truthy (v : option string) : bool :=
  match v with
  | Some (String _ _) => true
  | _ => false
  end.

(** ** Records *)

Module Order.
Record t := mk {
  orderId : string;
  zone : string;
  customer_address : option string;   (* [customer?.address] *)
  baseFee : Q;
  rushFee : Q;
  status : string;
  assigned_batch_id : option string
}.

(** [o.status = "assigned"; o.assigned_batch_id = bid] *)
Definition assign (bid : string) (o : t) : t :=
  mk (orderId o) (zone o) (customer_address o) (baseFee o) (rushFee o)
     "assigned" (Some bid).

(** [o.status = "delivered"] *)
Definition deliver (o : t) : t :=
  mk (orderId o) (zone o) (customer_address o) (baseFee o) (rushFee o)
     "delivered" (assigned_batch_id o).
End Order.

Module Driver.
Record t := mk {
  id : string;
  name : string;
  phone : string;
  zone : string;
  is_active : bool
}.
End Driver.

Module Batch.
Record t := mk {
  id : string;
  zone : string;
  cluster_key : string;
  driver : Driver.t;
  orders : list string;
  delivery_fee_each : Q;
  driver_earnings : Z;
  platform_delivery_margin : Z;
  status : string;
  started_at : Z;
  completed_at : option Z
}.

(** [b.status = "completed"; b.completed_at = now] *)
Definition complete (now : Z) (b : t) : t :=
  mk (id b) (zone b) (cluster_key b) (driver b) (orders b)
     (delivery_fee_each b) (driver_earnings b) (platform_delivery_margin b)
     "completed" (started_at b) (Some now).
End Batch.

Module Payout.
Record t := mk {
  id : string;
  week_label : string;
  from : Z;
  to : Z;
  driver : Driver.t;
  earnings : Z;
  orders_count : Z;
  batches_count : Z;
  status : string;
  created_at : Z;
  ref : string
}.
End Payout.

(** The four collections kept in [localStorage] under [KEYS]. *)
Record Store := mkStore {
  ORDERS : list Order.t;
  DRIVERS : list Driver.t;
  BATCHES : list Batch.t;
  PAYOUTS : list Payout.t
}.

(** What one call reads from the clock and the random generator; the
    argument is the number of records the call has created so far. *)
Record Env := mkEnv {
  Date_now : nat → Z;        (* [Date.now()] inside an identifier *)
  Math_random : nat → Q;     (* [Math.random()], in [0, 1) *)
  nowISO : nat → Z           (* the instant [nowISO()] renders *)
}.

(** ** Cluster key and driver directory *)

Definition clusterKey (order : Order.t) : string :=
  let a := trim (replace_ws (toLowerCase (default EmptyString (Order.customer_address order)))) in
  match a with
  | String _ _ => Order.zone order +:+ "::" +:+ a
  | EmptyString => Order.zone order +:+ "::zone-only"
  end.

(** [drivers.find(d => d.zone === zone && d.is_active) || drivers[0] || null] *)
Definition pickDriverForZone (drivers : list Driver.t) (zone : string)
  : option Driver.t :=
  match List.find (λ d, bool_decide (Driver.zone d = zone) && Driver.is_active d) drivers with
  | Some d => Some d
  | None => head drivers
  end.

(** ** Batch assignment *)

(** [arr.findIndex(p)], with [None] for [-1]. *)
Fixpoint findIndex {A} (p : A → bool) (l : list A) : option nat :=
  match l with
  | [] => None
  | x :: l' => if p x then Some O else S <$> findIndex p l'
  end.

Definition has_orderId (oid : string) (x : Order.t) : bool :=
  bool_decide (Order.orderId x = oid).

Definition has_batch_id (bid : string) (b : Batch.t) : bool :=
  bool_decide (Batch.id b = bid).

(** [Number(o.baseFee||0) + Number(o.rushFee||0)] *)
Definition feeOf (o : Order.t) : Q := (Order.baseFee o + Order.rushFee o)%Q.

(** The dictionary [byKey]: cluster key to group, in insertion order. *)
Definition ByKey := list (string * list Order.t).

(** [if (!byKey[k]) byKey[k] = []; byKey[k].push(o)] *)
Fixpoint byKey_push (k : string) (o : Order.t) (byKey : ByKey) : ByKey :=
  match byKey with
  | [] => [(k, [o])]
  | (k', g) :: rest =>
      if decide (k' = k) then (k', g ++ [o]) :: rest
      else (k', g) :: byKey_push k o rest
  end.

Definition group_by_key (candidates : list Order.t) : ByKey :=
  foldl (λ byKey o, byKey_push (clusterKey o) o byKey) [] candidates.

(** One turn of [for (const o of group)]: the first order of the store with
    the identifier of [o] is marked. *)
Definition mark_assigned (bid : string) (orders : list Order.t) (o : Order.t)
  : list Order.t :=
  match findIndex (has_orderId (Order.orderId o)) orders with
  | Some idx => alter (Order.assign bid) idx orders
  | None => orders
  end.

(** ["BAT-"+Date.now().toString().slice(-6)+"-"+Math.floor(Math.random()*100)] *)
Definition fresh_id (prefix : string) (env : Env) (i : nat) : string :=
  prefix +:+ slice_last 6 (pretty (Date_now env i)) +:+ "-"
         +:+ pretty (Qfloor (Math_random env i * 100)).

(** The state of the loop over [Object.keys(byKey)]. *)
Record Assigning := mkAssigning {
  a_orders : list Order.t;
  a_batches : list Batch.t;
  a_created : list Batch.t
}.

Definition make_batch (env : Env) (i : nat) (driver : Driver.t) (k : string)
    (g0 : Order.t) (group : list Order.t) : Batch.t :=
  let zone := Order.zone g0 in
  let feeEach := feeOf g0 in
  let e := computeClusterEarnings (Z.of_nat (length group)) feeEach in
  Batch.mk (fresh_id "BAT-" env i) zone k driver (Order.orderId <$> group)
           feeEach (driverTotal e) (platformDeliveryMargin e)
           "assigned" (nowISO env i) None.

Definition assign_group (env : Env) (drivers : list Driver.t)
    (acc : Assigning) (kg : string * list Order.t) : Assigning :=
  let '(k, group) := kg in
  match group with
  | [] => acc
  | g0 :: _ =>
      match pickDriverForZone drivers (Order.zone g0) with
      | None => acc
      | Some driver =>
          let batch := make_batch env (length (a_created acc)) driver k g0 group in
          mkAssigning (foldl (mark_assigned (Batch.id batch)) (a_orders acc) group)
                      (a_batches acc ++ [batch])
                      (a_created acc ++ [batch])
      end
  end.

(** [autoAssign], for the filter [candidate] a variant of the file puts on
    the orders. The groups hold the orders as they were filtered: the loop
    changes [status] and [assigned_batch_id] only, and reads neither from a
    group. *)
Definition autoAssign_with (candidate : Order.t → bool) (env : Env) (st : Store)
  : list Batch.t * Store :=
  let orders := ORDERS st in
  let batches := BATCHES st in
  let candidates := List.filter candidate orders in
  let byKey := group_by_key candidates in
  let r := foldl (assign_group env (DRIVERS st)) (mkAssigning orders batches []) byKey in
  (a_created r, mkStore (a_orders r) (DRIVERS st) (a_batches r) (PAYOUTS st)).

(** The variant of the file without the approval step: paid orders only. *)
Module PaidOnly.
(** [o.status === "paid" && !o.assigned_batch_id] *)
Definition candidate (o : Order.t) : bool :=
  bool_decide (Order.status o = "paid") && negb (truthy (Order.assigned_batch_id o)).

Definition autoAssign : Env → Store → list Batch.t * Store :=
  autoAssign_with candidate.
End PaidOnly.

(** The variant with the admin session and the approval step: "Assign
    only APPROVED or PAID". *)
Module ApprovedOrPaid.
(** [(o.status === "approved" || o.status === "paid") && !o.assigned_batch_id] *)
Definition candidate (o : Order.t) : bool :=
  (bool_decide (Order.status o = "approved") || bool_decide (Order.status o = "paid"))
  && negb (truthy (Order.assigned_batch_id o)).

Definition autoAssign : Env → Store → list Batch.t * Store :=
  autoAssign_with candidate.
End ApprovedOrPaid.

(** ** Batch completion *)

Definition mark_delivered (orders : list Order.t) (oid : string) : list Order.t :=
  match findIndex (has_orderId oid) orders with
  | Some oIdx => alter Order.deliver oIdx orders
  | None => orders
  end.

(** [completeBatch(batchId)] at the instant [now]: the returned boolean, and
    the store it leaves. *)
Definition completeBatch (now : Z) (batchId : string) (st : Store) : bool * Store :=
  let orders := ORDERS st in
  let batches := BATCHES st in
  match findIndex (has_batch_id batchId) batches with
  | None => (false, st)
  | Some bIdx =>
      (* [batches[bIdx].orders||[]] *)
      let oids := from_option Batch.orders [] (batches !! bIdx) in
      let orders' := foldl mark_delivered orders oids in
      let batches' := alter (Batch.complete now) bIdx batches in
      (true, mkStore orders' (DRIVERS st) batches' (PAYOUTS st))
  end.

(** ** Dates

    A [Date] is its time value: milliseconds on the local time line, day 0
    being Thursday 1 January 1970; the zone is one without daylight-saving
    shifts, so a local day has [msPerDay] milliseconds. *)

Definition msPerDay : Z := 86400000.

Definition Day (t : Z) : Z := t / msPerDay.

(** [d.getDay()]: 0 is Sunday. *)
Definition getDay (t : Z) : Z := (Day t + 4) mod 7.

(** The day number of 1 January of year [y]. *)
Definition DayFromYear (y : Z) : Z :=
  365 * (y - 1970) + (y - 1969) / 4 - (y - 1901) / 100 + (y - 1601) / 400.

(** The year a day falls in: an estimate from the mean length of a year,
    moved by one where it misses. *)
Definition YearFromDay (d : Z) : Z :=
  let y0 := 1970 + (400 * d) / 146097 in
  if d <? DayFromYear y0 then y0 - 1
  else if DayFromYear (y0 + 1) <=? d then y0 + 1
  else y0.

(** [d.getFullYear()] *)
Definition getFullYear (t : Z) : Z := YearFromDay (Day t).

(** [d.setHours(h, m, s, ms)] *)
Definition setHours (h m s ms : Z) (t : Z) : Z :=
  Day t * msPerDay + ((h * 60 + m) * 60 + s) * 1000 + ms.

(** [d.setDate(d.getDate() + n)] *)
Definition addDate (n : Z) (t : Z) : Z := t + n * msPerDay.

(** [new Date(y, 0, 1)]: a year from 0 to 99 is read as 1900 + y. *)
Definition Date_jan1 (y : Z) : Z :=
  DayFromYear (if (0 <=? y) && (y <=? 99) then 1900 + y else y) * msPerDay.

Definition startOfMonday (d : Z) : Z :=
  let day := getDay d in
  let diff := (day + 6) mod 7 in
  addDate (- diff) (setHours 0 0 0 0 d).

Definition endOfSunday (fromMonday : Z) : Z :=
  setHours 23 59 59 999 (addDate 6 fromMonday).

(** [Math.ceil((((d - onejan) / 86400000) + onejan.getDay()+1)/7)] *)
Definition weekNumber (d : Z) : Z :=
  let onejan := Date_jan1 (getFullYear d) in
  Math_ceil (((inject_Z (d - onejan) / inject_Z 86400000
               + inject_Z (getDay onejan) + 1) / 7)%Q).

Definition weekLabel (d : Z) : string :=
  pretty (getFullYear d) +:+ "-W" +:+ padStart 2 "0" (pretty (weekNumber d)).

(** ** Weekly payouts *)

(** An entry of the dictionary [grouped]. *)
Record Grouped := mkGrouped {
  g_driver : Driver.t;
  g_earnings : Z;
  g_batches : Z;
  g_orders : Z
}.

(** The three [+=] of the loop body. *)
Definition grouped_bump (b : Batch.t) (g : Grouped) : Grouped :=
  mkGrouped (g_driver g)
            (g_earnings g + Batch.driver_earnings b)
            (g_batches g + 1)
            (g_orders g + Z.of_nat (length (Batch.orders b))).

(** [grouped], keyed by driver identifier, in insertion order. *)
Fixpoint grouped_add (b : Batch.t) (grouped : list (string * Grouped))
  : list (string * Grouped) :=
  let id := Driver.id (Batch.driver b) in
  match grouped with
  | [] => [(id, grouped_bump b (mkGrouped (Batch.driver b) 0 0 0))]
  | (k, g) :: rest =>
      if decide (k = id) then (k, grouped_bump b g) :: rest
      else (k, g) :: grouped_add b rest
  end.

(** [b.status === "completed" && new Date(b.completed_at) >= monday
     && new Date(b.completed_at) <= sunday] *)
Definition in_window (monday sunday : Z) (b : Batch.t) : bool :=
  bool_decide (Batch.status b = "completed") &&
  match Batch.completed_at b with
  | Some c => (monday <=? c) && (c <=? sunday)
  | None => false
  end.

Definition make_payout (env : Env) (monday sunday : Z) (week : string)
    (i : nat) (entry : string * Grouped) : Payout.t :=
  let '(id, g) := entry in
  Payout.mk (fresh_id "PO-" env i) week monday sunday (g_driver g)
            (Math_round (inject_Z (g_earnings g)))
            (g_orders g) (g_batches g) "pending" (nowISO env i)
            ("YI-" +:+ week +:+ "-" +:+ slice_last 4 id).

(** [generateWeeklyPayouts(forDate)]: the records returned, and the store
    with them appended to the payouts. *)
Definition generateWeeklyPayouts (env : Env) (forDate : Z) (st : Store)
  : list Payout.t * Store :=
  let monday := startOfMonday forDate in
  let sunday := endOfSunday monday in
  let batches := BATCHES st in
  let inRange := List.filter (in_window monday sunday) batches in
  let grouped := foldl (λ grouped b, grouped_add b grouped) [] inRange in
  let week := weekLabel monday in
  let out := imap (make_payout env monday sunday week) grouped in
  (out, mkStore (ORDERS st) (DRIVERS st) (BATCHES st) (PAYOUTS st ++ out)).

(** ** The week label of the specification

    ISO 8601 numbers the weeks from Monday, week 1 being the week of the
    first Thursday of the year; the year of a week is the year of its
    Thursday. *)

Definition iso_weekday (d : Z) : Z := (d + 3) mod 7.   (* 0 is Monday *)

Definition iso_year_week (d : Z) : Z * Z :=
  let thursday := d - iso_weekday d + 3 in
  let y := YearFromDay thursday in
  (y, (thursday - DayFromYear y) / 7 + 1).

Definition iso_week_label (t : Z) : string :=
  let '(y, w) := iso_year_week (Day t) in
  pretty y +:+ "-W" +:+ padStart 2 "0" (pretty w).

(** ** Notions used to state what a run does *)

(** The identifiers of a list of orders, in order. *)
Definition ids (orders : list Order.t) : list string := Order.orderId <$> orders.

(** The group a dictionary holds for a key, empty when the key is absent. *)
Fixpoint group_of (k : string) (byKey : ByKey) : list Order.t :=
  match byKey with
  | [] => []
  | (k', g) :: rest => if decide (k' = k) then g else group_of k rest
  end.

(** The loop that fills [byKey], started from any dictionary. *)
Definition grouping (m : ByKey) (cs : list Order.t) : ByKey :=
  foldl (λ byKey o, byKey_push (clusterKey o) o byKey) m cs.

(** The batches the loop of [autoAssign] creates for a dictionary, [i]
    batches having been created before. *)
Fixpoint batches_for (env : Env) (drivers : list Driver.t) (i : nat)
    (byKey : ByKey) : list Batch.t :=
  match byKey with
  | [] => []
  | (k, group) :: rest =>
      match group with
      | [] => batches_for env drivers i rest
      | g0 :: _ =>
          match pickDriverForZone drivers (Order.zone g0) with
          | None => batches_for env drivers i rest
          | Some driver =>
              make_batch env i driver k g0 group
              :: batches_for env drivers (S i) rest
          end
      end
  end.

(** The batches a run of [autoAssign] creates in a store. *)
Definition new_batches (candidate : Order.t → bool) (env : Env) (st : Store)
  : list Batch.t :=
  batches_for env (DRIVERS st) 0
    (group_by_key (List.filter candidate (ORDERS st))).

(** What the marking loop of one batch does to an order of a store whose
    identifiers are unique, and what the loops of a list of batches do. *)
Definition assign_if (bid : string) (oids : list string) (y : Order.t) : Order.t :=
  if bool_decide (Order.orderId y ∈ oids) then Order.assign bid y else y.

Definition after_batches (bs : list Batch.t) (y : Order.t) : Order.t :=
  foldl (λ y b, assign_if (Batch.id b) (Batch.orders b) y) y bs.

(** The normal form of an address that [clusterKey] compares. *)
Definition normalized_address (o : Order.t) : string :=
  trim (replace_ws (toLowerCase (default EmptyString (Order.customer_address o)))).

(** What a run owes an order at index [i] that is paid and in no batch:
    with a driver for its zone, the order ends assigned to a created batch
    that lists it; without one it is left as it was. *)
Definition assigned_or_unchanged (run : Env → Store → list Batch.t * Store)
    (env : Env) (st : Store) (i : nat) (o : Order.t) : Prop :=
  let r := run env st in
  match pickDriverForZone (DRIVERS st) (Order.zone o) with
  | None => ORDERS r.2 !! i = Some o
  | Some _ =>
      ∃ o' b, ORDERS r.2 !! i = Some o'
              ∧ Order.status o' = "assigned"
              ∧ Order.assigned_batch_id o' = Some (Batch.id b)
              ∧ Batch.id b ≠ EmptyString
              ∧ b ∈ r.1
              ∧ Order.orderId o ∈ Batch.orders b
              ∧ o' = Order.assign (Batch.id b) o
  end.


(** The orders a run batches are the candidates of its filter: nothing
    without a driver; with one, every candidate once; only candidates; and,
    identifiers being unique, no other order is named or changed. *)
Definition batches_exactly (candidate : Order.t → bool)
    (run : Env → Store → list Batch.t * Store) (env : Env) (st : Store) : Prop :=
  let r := run env st in
  (DRIVERS st = [] → r.1 = [])
  ∧ (DRIVERS st ≠ [] →
     concat (Batch.orders <$> r.1) ≡ₚ ids (List.filter candidate (ORDERS st)))
  ∧ (∀ b oid, b ∈ r.1 → oid ∈ Batch.orders b →
       ∃ o, o ∈ ORDERS st ∧ Order.orderId o = oid ∧ candidate o = true)
  ∧ (NoDup (ids (ORDERS st)) →
     ∀ i o, ORDERS st !! i = Some o → candidate o = false →
       ORDERS r.2 !! i = Some o
       ∧ ∀ b, b ∈ r.1 → Order.orderId o ∉ Batch.orders b).

(** Two candidates land in one batch of the run; identifiers being unique,
    both end with the reference of that batch. *)
Definition batched_together (candidate : Order.t → bool)
    (run : Env → Store → list Batch.t * Store) (env : Env) (st : Store)
    (o1 o2 : Order.t) : Prop :=
  candidate o1 = true → candidate o2 = true → DRIVERS st ≠ [] →
  let r := run env st in
  ∃ b, b ∈ r.1
       ∧ Order.orderId o1 ∈ Batch.orders b
       ∧ Order.orderId o2 ∈ Batch.orders b
       ∧ (NoDup (ids (ORDERS st)) →
          ∀ i o, ORDERS st !! i = Some o → o = o1 ∨ o = o2 →
            ORDERS r.2 !! i = Some (Order.assign (Batch.id b) o)).

(** An order after a completion: as it was, or delivered. *)
Definition same_or_delivered (o o' : Order.t) : Prop :=
  o' = o ∨ o' = Order.deliver o.

(** The week count [weekLabel] prints for a Monday: weeks run from Sunday,
    the week of 1 January being week 1. *)
Definition sunday_week (monday : Z) : Z :=
  let y := getFullYear monday in
  let dayOfYear := Day monday - DayFromYear y in
  let jan1 := (DayFromYear y + 4) mod 7 in
  (dayOfYear + jan1) / 7 + 1.

Definition digit (n : Z) : ascii := ascii_of_N (48 + Z.to_N n).

(** A number below 100 in two decimal digits. *)
Definition two_digits (w : Z) : string :=
  String (digit (w / 10)) (String (digit (w mod 10)) EmptyString).

(** ** Sample data *)

Definition env_sample : Env :=
  mkEnv (λ i, 1700000123456 + Z.of_nat i) (λ _, 42 # 100) (λ _, 1700000123456).

Definition driver_sample : Driver.t :=
  Driver.mk "DRV-000001" "Sipho" "27820000001" "A" true.

Definition order_main_1 : Order.t :=
  Order.mk "YI-000001" "A" (Some "12 Main St") 25 0 "paid" None.

Definition order_main_2 : Order.t :=
  Order.mk "YI-000002" "A" (Some "  12   MAIN st ") 25 30 "paid" None.

Definition order_approved : Order.t :=
  Order.mk "YI-000003" "B" None 35 0 "approved" None.

Definition order_pending : Order.t :=
  Order.mk "YI-000004" "B" None 35 0 "pending" None.

Definition store_sample : Store :=
  mkStore [order_main_1; order_main_2; order_approved; order_pending]
          [driver_sample] [] [].

(** Two carts sent 1,000,000 ms apart, which [uuid] gives one identifier,
    both stored as paid, as [yithume-lite-pro.js] does for an
    [initialStatus] of paid. *)
Definition order_repeat_1 : Order.t :=
  Order.mk "YI-123456" "A" (Some "12 Main St") 25 0 "paid" None.

Definition order_repeat_2 : Order.t :=
  Order.mk "YI-123456" "A" (Some "7 Oak Ave") 25 0 "paid" None.

Definition store_repeat : Store :=
  mkStore [order_repeat_1; order_repeat_2] [driver_sample] [] [].

(** The same two carts, the first one still pending. *)
Definition order_repeat_pending : Order.t :=
  Order.mk "YI-123456" "A" (Some "12 Main St") 25 0 "pending" None.

Definition store_repeat_pending : Store :=
  mkStore [order_repeat_pending; order_repeat_2] [driver_sample] [] [].



(** A batch completed on Monday 4 January 2021, and a store holding it. *)
Definition batch_done : Batch.t :=
  Batch.mk "BAT-123456-42" "A" "A::12 main st" driver_sample
           ["YI-000001"; "YI-000002"] 25 35 15
           "completed" 1609720000000 (Some 1609754400000).

Definition store_done : Store :=
  mkStore [Order.deliver (Order.assign "BAT-123456-42" order_main_1);
           Order.deliver (Order.assign "BAT-123456-42" order_main_2)]
          [driver_sample] [batch_done] [].

(** Wednesday 6 January 2021, at noon. *)
Definition date_2021_01_06 : Z := 18633 * msPerDay + 12 * 3600000.


(** * The rest of the pipeline

    The operations around the engine: how an order enters the store and
    moves to [paid], how drivers enter the directory, how a payout is
    settled, and the delivery window quoted to the customer. A record keeps
    the fields above; the time stamps [paid_at], [approved_at] and
    [created_at] and the item lines, which the engine never reads, are
    outside it. *)

(** ** Status changes *)

(** [o.status = s] *)
Definition order_with_status (s : string) (o : Order.t) : Order.t :=
  Order.mk (Order.orderId o) (Order.zone o) (Order.customer_address o)
           (Order.baseFee o) (Order.rushFee o) s (Order.assigned_batch_id o).

(** The body shared by [approveOrder] and [markOrderPaid]: the first order
    with the identifier takes the status, and the call tells whether there
    was one. *)
Definition set_order_status (s : string) (orderId : string) (st : Store)
  : bool * Store :=
  let orders := ORDERS st in
  match findIndex (has_orderId orderId) orders with
  | Some i =>
      (true, mkStore (alter (order_with_status s) i orders)
                     (DRIVERS st) (BATCHES st) (PAYOUTS st))
  | None => (false, st)
  end.

Definition markOrderPaid : string → Store → bool * Store :=
  set_order_status "paid".

(** Of the variant with the approval step. *)
Definition approveOrder : string → Store → bool * Store :=
  set_order_status "approved".

(** [p.status = "paid"] *)
Definition payout_paid (p : Payout.t) : Payout.t :=
  Payout.mk (Payout.id p) (Payout.week_label p) (Payout.from p) (Payout.to p)
            (Payout.driver p) (Payout.earnings p) (Payout.orders_count p)
            (Payout.batches_count p) "paid" (Payout.created_at p) (Payout.ref p).

Definition has_payout_id (pid : string) (p : Payout.t) : bool :=
  bool_decide (Payout.id p = pid).

Definition markPayoutPaid (payoutId : string) (st : Store) : bool * Store :=
  let payouts := PAYOUTS st in
  match findIndex (has_payout_id payoutId) payouts with
  | Some idx =>
      (true, mkStore (ORDERS st) (DRIVERS st) (BATCHES st)
                     (alter payout_paid idx payouts))
  | None => (false, st)
  end.

(** ** Identifiers and new records *)

(** ["YI-" + Date.now().toString().slice(-6)] *)
Definition uuid (now : Z) : string := "YI-" +:+ slice_last 6 (pretty now).

(** [addDriver]: the driver made, active, and the store with it at the end
    of the directory. *)
Definition addDriver (now : Z) (name phone zone : string) (st : Store)
  : Driver.t * Store :=
  let d := Driver.mk ("DRV-" +:+ slice_last 6 (pretty now)) name phone zone true in
  (d, mkStore (ORDERS st) (DRIVERS st ++ [d]) (BATCHES st) (PAYOUTS st)).

(** [makeWhatsAppLink], in what it stores for a cart: the identifier it
    returns and the store with the order at the end of the orders. [status]
    is the status of a new order: ["awaiting_payment"] in the variant
    without the approval step, [initialStatus] in the other, where it is
    ["pending"] unless the caller gives one. The item lines, the total and
    the message text of the link are not part of this. *)
Definition makeWhatsAppLink (status : string) (now : Z) (zone : string)
    (baseFee rushFee : Q) (address : option string) (st : Store)
  : string * Store :=
  let orderId := uuid now in
  let o := Order.mk orderId zone address baseFee rushFee status None in
  (orderId, mkStore (ORDERS st ++ [o]) (DRIVERS st) (BATCHES st) (PAYOUTS st)).

(** A cart sent and a run of [autoAssign] in one order or the other: the run
    creates the same batches and the two stores are the same. *)
Definition commutes_with_order (run : Env → Store → list Batch.t * Store)
    (status : string) (env : Env) (now : Z) (zone : string)
    (baseFee rushFee : Q) (address : option string) (st : Store) : Prop :=
  let place := makeWhatsAppLink status now zone baseFee rushFee address in
  run env (place st).2 = ((run env st).1, (place (run env st).2).2).

(** ** The delivery window quoted to the customer *)

(** [d.getHours()] *)
Definition getHours (t : Z) : Z := (t mod msPerDay) / 3600000.

Definition pad2 (n : Z) : string := padStart 2 "0" (pretty n).

Definition dayNames : list string := ["Sun"; "Mon"; "Tue"; "Wed"; "Thu"; "Fri"; "Sat"].

Definition windows : list (Z * Z) := [(8, 10); (12, 14); (16, 18)].

(** [new Set([0,3,4,5,6])]: Sunday and Wednesday to Saturday. *)
Definition allowed (day : Z) : bool :=
  bool_decide (day ∈ [0; 3; 4; 5; 6]).

(** The formatter [fmt] of [nextETA]; [today] is what [new Date()] reads
    when it runs, and two dates have the same [toDateString()] when they
    fall on the same day. The dash between the hours is an en dash. *)
Definition fmt (rush : bool) (today : Z) (date : Z) (w : Z * Z) : string :=
  if Day date =? Day today
  then pad2 w.1 +:+ ":00–" +:+ pad2 w.2 +:+ ":00 "
       +:+ (if rush then "today (rush)" else "today")
  else default "undefined" (dayNames !! Z.to_nat (getDay date))
       +:+ " " +:+ pad2 w.1 +:+ ":00–" +:+ pad2 w.2 +:+ ":00".

(** The loop [for (let i=1;i<=7;i++)], from [i] with [n] turns left. *)
Fixpoint next_allowed_day (rush : bool) (today now : Z) (i : Z) (n : nat) : string :=
  match n with
  | O => "TBC"
  | S n' =>
      let d := addDate i now in
      if allowed (getDay d) then fmt rush today d (8, 10)
      else next_allowed_day rush today now (i + 1) n'
  end.

(** [nextETA(rush)], [now] being the clock at its first line. *)
Definition nextETA (now today : Z) (rush : bool) : string :=
  match (if allowed (getDay now)
         then List.find (λ w : Z * Z, getHours now <? w.2) windows
         else None) with
  | Some w => fmt rush today now w
  | None => next_allowed_day rush today now 1 7
  end.

(** ** Notions used to state the properties of the pipeline *)

(** The test of [pickDriverForZone]: a driver of the zone that is active. *)
Definition serves (zone : string) (d : Driver.t) : bool :=
  bool_decide (Driver.zone d = zone) && Driver.is_active d.

(** The batches [generateWeeklyPayouts] selects for a reference date. *)
Definition in_week (forDate : Z) (st : Store) : list Batch.t :=
  List.filter (in_window (startOfMonday forDate)
                         (endOfSunday (startOfMonday forDate)))
              (BATCHES st).

(** The batches of a list that carry the driver identifier [k]. *)
Definition batches_of_driver (k : string) (bs : list Batch.t) : list Batch.t :=
  filter (λ b, Driver.id (Batch.driver b) = k) bs.

(** The sum of a quantity over a list. *)
Definition total {A} (f : A → Z) (l : list A) : Z :=
  foldr (λ x s, f x + s) 0 l.

(** The entry a dictionary in insertion order holds for a key. *)
Fixpoint assoc_get {V} (k : string) (m : list (string * V)) : option V :=
  match m with
  | [] => None
  | (k', v) :: rest => if decide (k' = k) then Some v else assoc_get k rest
  end.

(** The entry of [grouped] a batch starts, and the batches added to one. *)
Definition grouped_init (b : Batch.t) : Grouped := mkGrouped (Batch.driver b) 0 0 0.

Definition bump_all (g : Grouped) (bs : list Batch.t) : Grouped :=
  foldl (λ g b, grouped_bump b g) g bs.

(** The fields of a payout that do not come from the clock or the random
    generator. *)
Definition payout_content (p : Payout.t)
  : string * Z * Z * Driver.t * Z * Z * Z * string * string :=
  (Payout.week_label p, Payout.from p, Payout.to p, Payout.driver p,
   Payout.earnings p, Payout.orders_count p, Payout.batches_count p,
   Payout.status p, Payout.ref p).

(** The index [j] is the one an identifier of [oids] is found at in [os]. *)
Definition found_at (os : list Order.t) (oids : list string) (j : nat) : Prop :=
  Exists (λ oid, findIndex (has_orderId oid) os = Some j) oids.

(** An order after a run that created the batches [bs]: as it was, or
    assigned to one of them. *)
Definition same_or_assigned (bs : list Batch.t) (o o' : Order.t) : Prop :=
  o' = o ∨ ∃ b, b ∈ bs ∧ o' = Order.assign (Batch.id b) o.

(** What [autoAssign] leaves alone: no order is added, removed or moved, an
    order changes only by being assigned to a created batch, drivers and
    payouts are untouched, and the created batches go after the old ones. *)
Definition run_frame (run : Env → Store → list Batch.t * Store)
    (env : Env) (st : Store) : Prop :=
  let r := run env st in
  ids (ORDERS r.2) = ids (ORDERS st)
  ∧ Forall2 (same_or_assigned r.1) (ORDERS st) (ORDERS r.2)
  ∧ DRIVERS r.2 = DRIVERS st
  ∧ PAYOUTS r.2 = PAYOUTS st
  ∧ BATCHES r.2 = BATCHES st ++ r.1.

(** The shape of a batch [autoAssign] creates: open, with a driver of the
    directory picked for its zone, and built on its first order, a
    candidate of the store that gives the zone, the fee and the key; its
    list names orders of the store in the order of the store. *)
Definition batch_wellformed (candidate : Order.t → bool) (st : Store)
    (b : Batch.t) : Prop :=
  Batch.status b = "assigned"
  ∧ Batch.completed_at b = None
  ∧ Batch.driver b ∈ DRIVERS st
  ∧ pickDriverForZone (DRIVERS st) (Batch.zone b) = Some (Batch.driver b)
  ∧ (∃ o, o ∈ ORDERS st ∧ candidate o = true
          ∧ head (Batch.orders b) = Some (Order.orderId o)
          ∧ Batch.zone b = Order.zone o
          ∧ Batch.delivery_fee_each b = feeOf o
          ∧ Batch.cluster_key b = clusterKey o)
  ∧ Batch.orders b `sublist_of` ids (ORDERS st).

(** A run creates one batch per cluster key at most and, identifiers being
    unique, lists no order twice. *)
Definition batches_disjoint (run : Env → Store → list Batch.t * Store)
    (env : Env) (st : Store) : Prop :=
  let r := run env st in
  NoDup (Batch.cluster_key <$> r.1)
  ∧ (NoDup (ids (ORDERS st)) → NoDup (concat (Batch.orders <$> r.1))).

(** The window [w] on the day [i] days after [now] is the one to quote: the
    day is a delivery day, the first one from today on that still has an
    open window, at most three days ahead; on the day itself [w] is the
    earliest window that has not ended, on a later day the morning one. *)
Definition quoted (now : Z) (i : Z) (w : Z * Z) : Prop :=
  0 ≤ i ≤ 3
  ∧ w ∈ windows
  ∧ allowed (getDay (addDate i now)) = true
  ∧ (∀ j, 0 < j < i → allowed (getDay (addDate j now)) = false)
  ∧ (i = 0 → getHours now < w.2
             ∧ ∀ w', w' ∈ windows → getHours now < w'.2 → w.2 ≤ w'.2)
  ∧ (0 < i → w = (8, 10)
             ∧ (allowed (getDay now) = false ∨ 18 ≤ getHours now)).

(** The six lowest decimal digits of a number. *)
Definition last_six (x : N) : string :=
  String (pretty_N_char (x / 100000 mod 10))
 (String (pretty_N_char (x / 10000 mod 10))
 (String (pretty_N_char (x / 1000 mod 10))
 (String (pretty_N_char (x / 100 mod 10))
 (String (pretty_N_char (x / 10 mod 10))
 (String (pretty_N_char (x mod 10)) EmptyString)))))%N.

(** Two carts sent at [now] and at [later], one after the other. *)
Definition two_carts (status status' : string) (now later : Z)
    (zone zone' : string) (baseFee rushFee baseFee' rushFee' : Q)
    (address address' : option string) (st : Store) : Store :=
  (makeWhatsAppLink status' later zone' baseFee' rushFee' address'
     (makeWhatsAppLink status now zone baseFee rushFee address st).2).2.

(** Assign, then complete: what [completeBatch] does with a batch [b] that
    the run before it created, batch identifiers being unique in the store
    after the run. The call succeeds and completes [b]; the orders [b] lists
    end delivered and carry its identifier, the others stay as the run left
    them. *)
Definition completes_created (run : Env → Store → list Batch.t * Store)
    (env : Env) (now : Z) (st : Store) (b : Batch.t) : Prop :=
  let r := run env st in
  let c := completeBatch now (Batch.id b) r.2 in
  b ∈ r.1 → NoDup (Batch.id <$> BATCHES r.2) →
  c.1 = true
  ∧ (∃ i, BATCHES r.2 !! i = Some b
          ∧ BATCHES c.2 = alter (Batch.complete now) i (BATCHES r.2))
  ∧ DRIVERS c.2 = DRIVERS st ∧ PAYOUTS c.2 = PAYOUTS st
  ∧ ∀ j o, ORDERS st !! j = Some o →
      ORDERS c.2 !! j
      = if decide (Order.orderId o ∈ Batch.orders b)
        then Some (Order.deliver (Order.assign (Batch.id b) o))
        else ORDERS r.2 !! j.

(** The first batch a run of the variant without the approval step creates
    on the sample store. *)
Definition batch_sample : Batch.t :=
  default batch_done (head (PaidOnly.autoAssign env_sample store_sample).1).

(** ** The normal form of an address *)

(** A string in which white space occurs only as single blanks; with
    [after_space] set, it does not start with one either. *)
Fixpoint squeezed (after_space : bool) (s : string) : bool :=
  match s with
  | EmptyString => true
  | String c s' =>
      if is_space c
      then Ascii.eqb c " " && negb after_space && squeezed true s'
      else squeezed false s'
  end.

(** A string that does not start with white space. *)
Definition no_lead (s : string) : bool :=
  match s with
  | EmptyString => true
  | String c _ => negb (is_space c)
  end.

(** The order [o] with the address [a] in place of its own. *)
Definition with_address (a : option string) (o : Order.t) : Order.t :=
  Order.mk (Order.orderId o) (Order.zone o) a (Order.baseFee o) (Order.rushFee o)
           (Order.status o) (Order.assigned_batch_id o).

(** ** Sample runs *)

Example clusterKey_normalizes : clusterKey order_main_2 = "A::12 main st".
Proof. vm_compute. reflexivity. Qed.

Example clusterKey_without_address : clusterKey order_pending = "B::zone-only".
Proof. vm_compute. reflexivity. Qed.

Example earnings_samples :
  computeClusterEarnings 2 25 = mkEarnings 35 15
  ∧ computeClusterEarnings 4 33 = mkEarnings 73 59
  ∧ computeClusterEarnings 1 (5 # 2) = mkEarnings 3 0
  ∧ computeClusterEarnings 0 100 = mkEarnings 100 (-100).
Proof. vm_compute. auto. Qed.

Example paidOnly_sample_run :
  (λ b, (Batch.id b, Batch.orders b, Batch.driver_earnings b,
         Batch.platform_delivery_margin b))
    <$> (PaidOnly.autoAssign env_sample store_sample).1
  = [("BAT-123456-42", ["YI-000001"; "YI-000002"], 35, 15)].
Proof. vm_compute. reflexivity. Qed.

Example approvedOrPaid_sample_run :
  (λ b, (Batch.id b, Batch.orders b, Batch.driver_earnings b,
         Batch.platform_delivery_margin b))
    <$> (ApprovedOrPaid.autoAssign env_sample store_sample).1
  = [("BAT-123456-42", ["YI-000001"; "YI-000002"], 35, 15);
     ("BAT-123457-42", ["YI-000003"], 35, 0)].
Proof. vm_compute. reflexivity. Qed.

Example sample_run_marks_orders :
  (λ o, (Order.status o, Order.assigned_batch_id o))
    <$> ORDERS (PaidOnly.autoAssign env_sample store_sample).2
  = [("assigned", Some "BAT-123456-42"); ("assigned", Some "BAT-123456-42");
     ("approved", None); ("pending", None)].
Proof. vm_compute. reflexivity. Qed.

Example sample_week :
  startOfMonday date_2021_01_06 = 18631 * msPerDay
  ∧ endOfSunday (startOfMonday date_2021_01_06) = 18638 * msPerDay - 1
  ∧ weekLabel (startOfMonday date_2021_01_06) = "2021-W02".
Proof. vm_compute. auto. Qed.

Example sample_payout :
  (λ p, (Payout.id p, Payout.week_label p, Payout.earnings p,
         Payout.orders_count p, Payout.batches_count p, Payout.ref p))
    <$> (generateWeeklyPayouts env_sample date_2021_01_06 store_done).1
  = [("PO-123456-42", "2021-W02", 35, 2, 1, "YI-2021-W02-0001")].
Proof. vm_compute. reflexivity. Qed.

(** ** Rounding lemmas *)

Lemma Math_round_half_up (x : Q) : round_half_up x (Math_round x).
Proof.
  unfold round_half_up, Math_round.
  pose proof (Qfloor_le (x + (1 # 2))) as Hlo.
  pose proof (Qlt_floor (x + (1 # 2))) as Hhi.
  rewrite inject_Z_plus in Hhi. change (inject_Z 1) with 1%Q in Hhi.
  set (z := inject_Z (Qfloor (x + (1 # 2)))) in *. clearbody z.
  split; lra.
Qed.

Lemma round_half_up_unique (x : Q) (z1 z2 : Z) :
  round_half_up x z1 → round_half_up x z2 → z1 = z2.
Proof.
  unfold round_half_up. intros [Hl1 Hh1] [Hl2 Hh2].
  assert (H12 : (inject_Z z1 < inject_Z z2 + 1)%Q) by lra.
  assert (H21 : (inject_Z z2 < inject_Z z1 + 1)%Q) by lra.
  change 1%Q with (inject_Z 1) in H12, H21.
  rewrite <- inject_Z_plus in H12, H21.
  rewrite <- Zlt_Qlt in H12, H21. lia.
Qed.

Lemma Math_round_inject_Z (z : Z) : Math_round (inject_Z z) = z.
Proof.
  apply (round_half_up_unique (inject_Z z)); [apply Math_round_half_up|].
  unfold round_half_up. split; lra.
Qed.

Lemma Math_round_comp (x y : Q) : (x == y)%Q → Math_round x = Math_round y.
Proof. intros Hxy. unfold Math_round. apply Qfloor_comp. by rewrite Hxy. Qed.

Lemma Math_round_sub_Z (a b : Z) :
  Math_round (inject_Z a - inject_Z b) = a - b.
Proof.
  rewrite <- (Math_round_inject_Z (a - b)). apply Math_round_comp.
  unfold Z.sub. rewrite inject_Z_plus, inject_Z_opp. reflexivity.
Qed.

Lemma Math_round_err (x : Q) :
  (- (1 # 2) <= inject_Z (Math_round x) - x)%Q ∧
  (inject_Z (Math_round x) - x <= 1 # 2)%Q.
Proof. destruct (Math_round_half_up x) as [Hl Hh]. split; lra. Qed.

(** ** The earnings split *)









(** C10. With a count of zero [computeClusterEarnings] still returns: the
    driver total is the rounded fee, the whole first-stop share, and the
    platform margin is its negation. *)
Theorem computeClusterEarnings_zero (f : Q) :
  computeClusterEarnings 0 f = mkEarnings (Math_round f) (- Math_round f).
Proof.
  unfold computeClusterEarnings.
  change (Z.max 0 (0 - 1)) with 0. change (inject_Z 0) with 0%Q.
  set (d := Math_round _).
  assert (Hd : d = Math_round f).
  { apply Math_round_comp. unfold CONFIG.DRIVER_SHARE_FIRST. ring. }
  f_equal; [exact Hd|]. rewrite <- Hd.
  change (0 * f)%Q with (inject_Z 0 * f)%Q.
  rewrite (Math_round_comp _ (inject_Z 0 - inject_Z d)) by ring.
  rewrite Math_round_sub_Z. lia.
Qed.

(** ** Searching an array *)

Section findIndex.
Context {A : Type} (p : A → bool).

Lemma findIndex_Some (l : list A) (i : nat) :
  findIndex p l = Some i ↔
  ∃ x, l !! i = Some x ∧ p x = true ∧
       ∀ j y, (j < i)%nat → l !! j = Some y → p y = false.
Proof.
  revert i. induction l as [|a l IH]; intros i; simpl.
  - split; [discriminate|]. intros (x & Hx & _). discriminate.
  - destruct (p a) eqn:Hpa.
    + split.
      * intros [= <-]. exists a. split_and!; [done|done|]. intros j y Hj. lia.
      * intros (x & Hx & Hpx & Hfirst). destruct i as [|i]; [done|].
        specialize (Hfirst O a ltac:(lia) eq_refl). congruence.
    + rewrite fmap_Some. split.
      * intros (i' & Hi' & ->). apply IH in Hi' as (x & Hx & Hpx & Hfirst).
        exists x. split_and!; [done|done|].
        intros [|j] y Hj Hy; simpl in Hy; [congruence|].
        apply (Hfirst j); [lia|done].
      * intros (x & Hx & Hpx & Hfirst). destruct i as [|i]; simpl in Hx.
        { congruence. }
        exists i. split; [|done]. apply IH. exists x. split_and!; [done|done|].
        intros j y Hj Hy. apply (Hfirst (S j)); [lia|done].
Qed.

Lemma findIndex_None (l : list A) :
  findIndex p l = None ↔ ∀ x, x ∈ l → p x = false.
Proof.
  induction l as [|a l IH]; simpl.
  - split; [|done]. intros _ x Hx. by apply elem_of_nil in Hx.
  - destruct (p a) eqn:Hpa.
    + split; [discriminate|]. intros Hall.
      specialize (Hall a ltac:(left)). congruence.
    + rewrite fmap_None, IH. split.
      * intros Hall x Hx. apply elem_of_cons in Hx as [->|Hx]; [done|]. by apply Hall.
      * intros Hall x Hx. apply Hall. by right.
Qed.

End findIndex.

Lemma findIndex_fmap {A B} (f : A → B) (p : B → bool) (l : list A) :
  findIndex p (f <$> l) = findIndex (p ∘ f) l.
Proof.
  induction l as [|a l IH]; [done|].
  rewrite fmap_cons. cbn [findIndex compose]. rewrite IH. done.
Qed.

Lemma findIndex_orderId (oid : string) (os : list Order.t) :
  findIndex (has_orderId oid) os
  = findIndex (λ x, bool_decide (x = oid)) (ids os).
Proof. unfold ids. by rewrite findIndex_fmap. Qed.

Lemma has_orderId_true (oid : string) (x : Order.t) :
  has_orderId oid x = true ↔ Order.orderId x = oid.
Proof. unfold has_orderId. by rewrite bool_decide_eq_true. Qed.

Lemma has_batch_id_true (bid : string) (b : Batch.t) :
  has_batch_id bid b = true ↔ Batch.id b = bid.
Proof. unfold has_batch_id. by rewrite bool_decide_eq_true. Qed.

(** ** Marking the orders of a batch *)

Lemma assign_if_orderId (bid : string) (oids : list string) (y : Order.t) :
  Order.orderId (assign_if bid oids y) = Order.orderId y.
Proof. unfold assign_if. by case_bool_decide. Qed.

Lemma ids_assign_if (bid : string) (oids : list string) (os : list Order.t) :
  ids (assign_if bid oids <$> os) = ids os.
Proof.
  unfold ids. rewrite <- list_fmap_compose. apply list_fmap_ext.
  intros i y _. apply assign_if_orderId.
Qed.

Lemma fmap_unchanged {A} (f : A → A) (l : list A) :
  (∀ x, x ∈ l → f x = x) → f <$> l = l.
Proof.
  intros Hf. rewrite <- (list_fmap_id l) at 2. apply list_fmap_ext.
  intros i x Hx. apply Hf. by eapply list_elem_of_lookup_2.
Qed.

Lemma mark_assigned_unique (bid : string) (os : list Order.t) (o : Order.t) :
  NoDup (ids os) →
  mark_assigned bid os o = assign_if bid [Order.orderId o] <$> os.
Proof.
  unfold mark_assigned. induction os as [|y os IH]; [done|].
  intros Hnd. change (ids (y :: os)) with (Order.orderId y :: ids os) in Hnd.
  apply NoDup_cons in Hnd as [Hnotin Hnd]. specialize (IH Hnd).
  rewrite fmap_cons. cbn [findIndex].
  destruct (has_orderId (Order.orderId o) y) eqn:Hy.
  - apply has_orderId_true in Hy. cbn. f_equal.
    + unfold assign_if. rewrite bool_decide_eq_true_2; [done|].
      by apply list_elem_of_singleton.
    + symmetry. apply fmap_unchanged. intros z Hz. unfold assign_if.
      rewrite bool_decide_eq_false_2; [done|].
      rewrite list_elem_of_singleton. intros Heq. apply Hnotin.
      rewrite Hy, <- Heq. unfold ids. by apply list_elem_of_fmap_2.
  - assert (Hy' : assign_if bid [Order.orderId o] y = y).
    { unfold assign_if. rewrite bool_decide_eq_false_2; [done|].
      rewrite list_elem_of_singleton. intros Heq.
      apply has_orderId_true in Heq. congruence. }
    rewrite Hy'. destruct (findIndex _ os) as [i|]; cbn; by rewrite <- IH.
Qed.

Lemma assign_if_twice (bid : string) (oid : string) (oids : list string) (y : Order.t) :
  assign_if bid oids (assign_if bid [oid] y) = assign_if bid (oid :: oids) y.
Proof.
  unfold assign_if at 2 3.
  destruct (decide (Order.orderId y = oid)) as [Heq|Hne].
  - rewrite !bool_decide_eq_true_2 by (rewrite ?list_elem_of_singleton, ?elem_of_cons; auto).
    unfold assign_if. by destruct (bool_decide _).
  - rewrite (bool_decide_eq_false_2 (_ ∈ [oid])) by (by rewrite list_elem_of_singleton).
    unfold assign_if. apply (f_equal (λ b : bool, if b then _ else _)).
    apply bool_decide_ext. rewrite elem_of_cons. tauto.
Qed.

Lemma mark_group_unique (bid : string) (group os : list Order.t) :
  NoDup (ids os) →
  foldl (mark_assigned bid) os group = assign_if bid (ids group) <$> os.
Proof.
  revert os. induction group as [|o group IH]; intros os Hnd; simpl.
  - symmetry. apply fmap_unchanged. intros y _. unfold assign_if.
    rewrite bool_decide_eq_false_2; [done|]. apply not_elem_of_nil.
  - rewrite (mark_assigned_unique _ _ _ Hnd).
    assert (Hnd' : NoDup (ids (assign_if bid [Order.orderId o] <$> os)))
      by (by rewrite ids_assign_if).
    rewrite (IH _ Hnd').
    rewrite <- list_fmap_compose. apply list_fmap_ext.
    intros i y _. apply assign_if_twice.
Qed.

(** ** The loop over the groups *)

Lemma assign_group_skip (env : Env) (drivers : list Driver.t) (acc : Assigning)
    (k : string) (group : list Order.t) :
  from_option (λ g0, pickDriverForZone drivers (Order.zone g0)) None (head group) = None →
  assign_group env drivers acc (k, group) = acc.
Proof.
  unfold assign_group. destruct group as [|g0 g]; [done|]. simpl. by intros ->.
Qed.

Lemma assign_group_batch (env : Env) (drivers : list Driver.t) (acc : Assigning)
    (k : string) (g0 : Order.t) (g : list Order.t) (driver : Driver.t) :
  pickDriverForZone drivers (Order.zone g0) = Some driver →
  let batch := make_batch env (length (a_created acc)) driver k g0 (g0 :: g) in
  assign_group env drivers acc (k, g0 :: g)
  = mkAssigning (foldl (mark_assigned (Batch.id batch)) (a_orders acc) (g0 :: g))
                (a_batches acc ++ [batch]) (a_created acc ++ [batch]).
Proof. intros Hpick. unfold assign_group. by rewrite Hpick. Qed.

Lemma assign_loop (env : Env) (drivers : list Driver.t) (byKey : ByKey)
    (acc : Assigning) :
  let r := foldl (assign_group env drivers) acc byKey in
  let newb := batches_for env drivers (length (a_created acc)) byKey in
  a_created r = a_created acc ++ newb
  ∧ a_batches r = a_batches acc ++ newb
  ∧ (NoDup (ids (a_orders acc)) →
     a_orders r = after_batches newb <$> a_orders acc).
Proof.
  revert acc. induction byKey as [|[k group] rest IH]; intros acc; cbn zeta.
  - simpl. rewrite !app_nil_r. split_and!; [done|done|].
    intros _. symmetry. by apply fmap_unchanged.
  - change (foldl (assign_group env drivers) acc ((k, group) :: rest))
      with (foldl (assign_group env drivers)
              (assign_group env drivers acc (k, group)) rest).
    destruct group as [|g0 group'].
    { rewrite assign_group_skip by done. apply IH. }
    destruct (pickDriverForZone drivers (Order.zone g0)) as [driver|] eqn:Hpick.
    2:{ rewrite assign_group_skip by done. cbn [batches_for]. rewrite Hpick. apply IH. }
    rewrite (assign_group_batch _ _ _ _ _ _ _ Hpick). cbn zeta.
    cbn [batches_for]. rewrite Hpick.
    set (batch := make_batch env (length (a_created acc)) driver k g0 (g0 :: group')).
    specialize (IH (mkAssigning
      (foldl (mark_assigned (Batch.id batch)) (a_orders acc) (g0 :: group'))
      (a_batches acc ++ [batch]) (a_created acc ++ [batch]))).
    cbn zeta in IH. cbn [a_created a_batches a_orders] in IH.
    rewrite length_app, Nat.add_1_r in IH. destruct IH as (Hc & Hb & Ho).
    rewrite Hc, Hb, <- !app_assoc. split_and!; [done|done|].
    intros Hnd. rewrite (mark_group_unique _ _ _ Hnd) in Ho |- *.
    rewrite Ho by (by rewrite ids_assign_if).
    by rewrite <- list_fmap_compose.
Qed.

(** What a run of [autoAssign] leaves, for any filter. *)
Lemma autoAssign_with_spec (candidate : Order.t → bool) (env : Env) (st : Store) :
  let newb := new_batches candidate env st in
  let r := autoAssign_with candidate env st in
  r.1 = newb
  ∧ BATCHES r.2 = BATCHES st ++ newb
  ∧ DRIVERS r.2 = DRIVERS st
  ∧ PAYOUTS r.2 = PAYOUTS st
  ∧ (NoDup (ids (ORDERS st)) → ORDERS r.2 = after_batches newb <$> ORDERS st).
Proof.
  cbn zeta. unfold autoAssign_with. cbn [fst snd ORDERS BATCHES DRIVERS PAYOUTS].
  pose proof (assign_loop env (DRIVERS st)
    (group_by_key (List.filter candidate (ORDERS st)))
    (mkAssigning (ORDERS st) (BATCHES st) [])) as H.
  cbn zeta in H. cbn [a_created a_batches a_orders length app] in H.
  destruct H as (Hc & Hb & Ho). by split_and!.
Qed.

Lemma pickDriverForZone_None (drivers : list Driver.t) (zone : string) :
  pickDriverForZone drivers zone = None ↔ drivers = [].
Proof.
  unfold pickDriverForZone. split.
  - destruct (List.find _ drivers); [discriminate|]. by destruct drivers.
  - by intros ->.
Qed.

Lemma batches_for_no_driver (env : Env) (i : nat) (byKey : ByKey) :
  batches_for env [] i byKey = [].
Proof.
  revert i. induction byKey as [|[k [|g0 g]] rest IH]; intros i; simpl; auto.
Qed.

Lemma batches_for_elem (env : Env) (drivers : list Driver.t) (i : nat)
    (byKey : ByKey) (b : Batch.t) :
  b ∈ batches_for env drivers i byKey →
  ∃ k g0 g driver j,
    (k, g0 :: g) ∈ byKey
    ∧ pickDriverForZone drivers (Order.zone g0) = Some driver
    ∧ b = make_batch env j driver k g0 (g0 :: g).
Proof.
  revert i. induction byKey as [|[k [|g0 g]] rest IH]; intros i; simpl.
  - by rewrite elem_of_nil.
  - intros Hb. destruct (IH _ Hb) as (k' & g0' & g' & d & j & Hin & Hd & ->).
    exists k', g0', g', d, j. split_and!; [by right|done|done].
  - destruct (pickDriverForZone drivers (Order.zone g0)) as [driver|] eqn:Hpick.
    + rewrite elem_of_cons. intros [->|Hb].
      * exists k, g0, g, driver, i. split_and!; [by left|done|done].
      * destruct (IH _ Hb) as (k' & g0' & g' & d & j & Hin & Hd & ->).
        exists k', g0', g', d, j. split_and!; [by right|done|done].
    + intros Hb. destruct (IH _ Hb) as (k' & g0' & g' & d & j & Hin & Hd & ->).
      exists k', g0', g', d, j. split_and!; [by right|done|done].
Qed.

Lemma batches_for_group (env : Env) (drivers : list Driver.t) (i : nat)
    (byKey : ByKey) (k : string) (g0 : Order.t) (g : list Order.t) :
  drivers ≠ [] → (k, g0 :: g) ∈ byKey →
  ∃ driver j,
    pickDriverForZone drivers (Order.zone g0) = Some driver
    ∧ make_batch env j driver k g0 (g0 :: g) ∈ batches_for env drivers i byKey.
Proof.
  intros Hdrivers. revert i.
  induction byKey as [|[k' grp] rest IH]; intros i; [by rewrite elem_of_nil|].
  rewrite elem_of_cons. intros [[= <- <-]|Hin].
  - simpl. destruct (pickDriverForZone drivers (Order.zone g0)) as [driver|] eqn:Hpick.
    + exists driver, i. split; [done|]. by left.
    + by apply pickDriverForZone_None in Hpick.
  - simpl. destruct grp as [|g0' g'].
    { by apply IH. }
    destruct (pickDriverForZone drivers (Order.zone g0')) as [driver'|].
    + destruct (IH (S i) Hin) as (d & j & Hd & Hb). exists d, j. split; [done|]. by right.
    + by apply IH.
Qed.

Lemma batches_for_orders (env : Env) (drivers : list Driver.t) (i : nat)
    (byKey : ByKey) :
  drivers ≠ [] →
  concat (Batch.orders <$> batches_for env drivers i byKey)
  = ids (concat (byKey.*2)).
Proof.
  intros Hdrivers. revert i.
  induction byKey as [|[k grp] rest IH]; intros i; [done|].
  rewrite fmap_cons. cbn [snd concat batches_for].
  unfold ids. rewrite fmap_app. fold (ids grp) (ids (concat rest.*2)).
  destruct grp as [|g0 g]; [by rewrite IH|].
  destruct (pickDriverForZone drivers (Order.zone g0)) as [driver|] eqn:Hpick.
  - rewrite fmap_cons. cbn [concat]. by rewrite IH.
  - by apply pickDriverForZone_None in Hpick.
Qed.

(** ** Grouping by cluster key *)

Lemma group_of_push (k' k : string) (o : Order.t) (m : ByKey) :
  group_of k' (byKey_push k o m)
  = if decide (k' = k) then group_of k m ++ [o] else group_of k' m.
Proof.
  induction m as [|[k0 g0] m IH]; simpl.
  - repeat case_decide; subst; done.
  - destruct (decide (k0 = k)) as [->|Hne]; simpl.
    + repeat case_decide; subst; done.
    + rewrite IH. repeat case_decide; subst; done.
Qed.

Lemma keys_push (k' k : string) (o : Order.t) (m : ByKey) :
  k' ∈ (byKey_push k o m).*1 ↔ k' = k ∨ k' ∈ m.*1.
Proof.
  induction m as [|[k0 g0] m IH]; simpl.
  - rewrite list_elem_of_singleton, elem_of_nil. tauto.
  - destruct (decide (k0 = k)) as [->|Hne]; simpl.
    + rewrite !elem_of_cons. tauto.
    + rewrite !elem_of_cons, IH. tauto.
Qed.

Lemma keys_push_NoDup (k : string) (o : Order.t) (m : ByKey) :
  NoDup m.*1 → NoDup (byKey_push k o m).*1.
Proof.
  induction m as [|[k0 g0] m IH]; simpl; intros Hnd.
  - apply NoDup_singleton.
  - apply NoDup_cons in Hnd as [Hk0 Hnd].
    destruct (decide (k0 = k)) as [->|Hne]; simpl.
    + by apply NoDup_cons.
    + apply NoDup_cons. split; [|by apply IH].
      rewrite keys_push. tauto.
Qed.

Lemma push_nonempty (k : string) (o : Order.t) (m : ByKey) :
  Forall (λ kg, kg.2 ≠ []) m → Forall (λ kg, kg.2 ≠ []) (byKey_push k o m).
Proof.
  induction m as [|[k0 g0] m IH]; simpl; intros Hall.
  - by repeat constructor.
  - apply Forall_cons in Hall as [Hg0 Hall].
    destruct (decide (k0 = k)) as [->|Hne].
    + apply Forall_cons. split; [|done]. simpl. by destruct g0.
    + apply Forall_cons. split; [done|]. by apply IH.
Qed.

Lemma push_concat (k : string) (o : Order.t) (m : ByKey) :
  concat (byKey_push k o m).*2 ≡ₚ concat m.*2 ++ [o].
Proof.
  induction m as [|[k0 g0] m IH]; simpl; [done|].
  destruct (decide (k0 = k)) as [->|Hne]; simpl.
  - rewrite <- !app_assoc. f_equiv. apply Permutation_app_comm.
  - rewrite IH. by rewrite app_assoc.
Qed.

Lemma elem_group_of (m : ByKey) (k : string) (g : list Order.t) :
  NoDup m.*1 → (k, g) ∈ m → group_of k m = g.
Proof.
  induction m as [|[k0 g0] m IH]; simpl; intros Hnd Hin.
  - by apply elem_of_nil in Hin.
  - apply NoDup_cons in Hnd as [Hk0 Hnd].
    apply elem_of_cons in Hin as [[= -> ->]|Hin].
    + by rewrite decide_True.
    + destruct (decide (k0 = k)) as [->|Hne]; [|by apply IH].
      exfalso. apply Hk0. by apply (list_elem_of_fmap_2 fst) in Hin.
Qed.

Lemma group_of_elem (m : ByKey) (k : string) :
  k ∈ m.*1 → (k, group_of k m) ∈ m.
Proof.
  induction m as [|[k0 g0] m IH]; simpl; intros Hin.
  - by apply elem_of_nil in Hin.
  - destruct (decide (k0 = k)) as [->|Hne]; [by left|].
    apply elem_of_cons in Hin as [->|Hin]; [done|]. right. by apply IH.
Qed.

Lemma group_of_absent (m : ByKey) (k : string) :
  k ∉ m.*1 → group_of k m = [].
Proof.
  induction m as [|[k0 g0] m IH]; simpl; intros Hnotin; [done|].
  apply not_elem_of_cons in Hnotin as [Hne Hnotin].
  rewrite decide_False by done. by apply IH.
Qed.

Section grouping.
Lemma grouping_group_of (k : string) (m : ByKey) (cs : list Order.t) :
  group_of k (grouping m cs)
  = group_of k m ++ filter (λ o, clusterKey o = k) cs.
Proof.
  revert m. induction cs as [|o cs IH]; intros m; simpl.
  - by rewrite app_nil_r.
  - unfold grouping in IH. rewrite IH, group_of_push, filter_cons.
    repeat case_decide; subst; try done. by rewrite <- app_assoc.
Qed.

Lemma grouping_wf (m : ByKey) (cs : list Order.t) :
  NoDup m.*1 → Forall (λ kg, kg.2 ≠ []) m →
  NoDup (grouping m cs).*1 ∧ Forall (λ kg, kg.2 ≠ []) (grouping m cs).
Proof.
  revert m. induction cs as [|o cs IH]; intros m Hnd Hne; simpl; [done|].
  apply IH; [by apply keys_push_NoDup|by apply push_nonempty].
Qed.

Lemma grouping_concat (m : ByKey) (cs : list Order.t) :
  concat (grouping m cs).*2 ≡ₚ concat m.*2 ++ cs.
Proof.
  revert m. induction cs as [|o cs IH]; intros m.
  - simpl. by rewrite app_nil_r.
  - change (grouping m (o :: cs))
      with (grouping (byKey_push (clusterKey o) o m) cs).
    rewrite IH, push_concat. by rewrite <- app_assoc.
Qed.
End grouping.

(** A group of the dictionary is the non-empty list of the candidates that
    have its key, in the order of the store. *)
Lemma group_by_key_elem (cs : list Order.t) (k : string) (g : list Order.t) :
  (k, g) ∈ group_by_key cs ↔
  g ≠ [] ∧ g = filter (λ o, clusterKey o = k) cs.
Proof.
  change (group_by_key cs) with (grouping [] cs).
  destruct (grouping_wf [] cs) as [Hnd Hne]; [constructor|constructor|].
  pose proof (grouping_group_of k [] cs) as Hk. simpl in Hk.
  split.
  - intros Hin. split.
    + rewrite Forall_forall in Hne. apply (Hne _ Hin).
    + rewrite <- Hk. symmetry. by apply elem_group_of.
  - intros [Hg ->]. rewrite <- Hk.
    apply group_of_elem.
    destruct (decide (k ∈ (grouping [] cs).*1)) as [|Habsent]; [done|].
    apply group_of_absent in Habsent. congruence.
Qed.

Lemma group_by_key_concat (cs : list Order.t) :
  concat (group_by_key cs).*2 ≡ₚ cs.
Proof. apply (grouping_concat [] cs). Qed.

(** ** The orders after the loop *)

Lemma after_batches_snoc (bs : list Batch.t) (b : Batch.t) (y : Order.t) :
  after_batches (bs ++ [b]) y
  = assign_if (Batch.id b) (Batch.orders b) (after_batches bs y).
Proof. unfold after_batches. by rewrite foldl_snoc. Qed.

Lemma after_batches_orderId (bs : list Batch.t) (y : Order.t) :
  Order.orderId (after_batches bs y) = Order.orderId y.
Proof.
  induction bs as [|b bs IH] using rev_ind; [done|].
  by rewrite after_batches_snoc, assign_if_orderId.
Qed.

Lemma assign_after_batches (bid : string) (bs : list Batch.t) (y : Order.t) :
  Order.assign bid (after_batches bs y) = Order.assign bid y.
Proof.
  induction bs as [|b bs IH] using rev_ind; [done|].
  rewrite after_batches_snoc. unfold assign_if. by case_bool_decide.
Qed.

Lemma ids_after_batches (bs : list Batch.t) (os : list Order.t) :
  ids (after_batches bs <$> os) = ids os.
Proof.
  unfold ids. rewrite <- list_fmap_compose. apply list_fmap_ext.
  intros i y _. apply after_batches_orderId.
Qed.

Lemma elem_of_snoc_init {A} (l : list A) (x y : A) : x ∈ l → x ∈ l ++ [y].
Proof. intros Hx. apply elem_of_app. by left. Qed.

Lemma elem_of_snoc_last {A} (l : list A) (x : A) : x ∈ l ++ [x].
Proof. apply elem_of_app. right. by apply list_elem_of_singleton. Qed.

Lemma elem_of_snoc_inv {A} (l : list A) (x y : A) : x ∈ l ++ [y] → x ∈ l ∨ x = y.
Proof. rewrite elem_of_app, list_elem_of_singleton. tauto. Qed.

(** An order is left as it was when no batch names it, and else carries
    the identifier of a batch that names it. *)
Lemma after_batches_cases (bs : list Batch.t) (y : Order.t) :
  (after_batches bs y = y ∧ ∀ b, b ∈ bs → Order.orderId y ∉ Batch.orders b)
  ∨ (∃ b, b ∈ bs ∧ Order.orderId y ∈ Batch.orders b
          ∧ after_batches bs y = Order.assign (Batch.id b) y).
Proof.
  induction bs as [|b bs IH] using rev_ind.
  - left. split; [done|]. intros b Hb. by apply elem_of_nil in Hb.
  - rewrite after_batches_snoc. unfold assign_if.
    rewrite after_batches_orderId. case_bool_decide as Hin.
    + right. exists b.
      split_and!; [apply elem_of_snoc_last|done|apply assign_after_batches].
    + destruct IH as [[Heq Hnone]|(b' & Hb' & Hin' & Heq)].
      * left. split; [done|]. intros b0 Hb0.
        apply elem_of_snoc_inv in Hb0 as [Hb0| ->]; [by apply Hnone|done].
      * right. exists b'. split_and!; [by apply elem_of_snoc_init|done|done].
Qed.

(** Two orders that the same batches name end with the same batch. *)
Lemma after_batches_together (bs : list Batch.t) (y1 y2 : Order.t) :
  (∀ b, b ∈ bs →
     Order.orderId y1 ∈ Batch.orders b ↔ Order.orderId y2 ∈ Batch.orders b) →
  (∃ b, b ∈ bs ∧ Order.orderId y1 ∈ Batch.orders b) →
  ∃ b, b ∈ bs
       ∧ Order.orderId y1 ∈ Batch.orders b ∧ Order.orderId y2 ∈ Batch.orders b
       ∧ after_batches bs y1 = Order.assign (Batch.id b) y1
       ∧ after_batches bs y2 = Order.assign (Batch.id b) y2.
Proof.
  induction bs as [|b bs IH] using rev_ind; intros Hsame (b1 & Hb1 & Hin1).
  - by apply elem_of_nil in Hb1.
  - rewrite !after_batches_snoc. unfold assign_if.
    rewrite !after_batches_orderId.
    destruct (decide (Order.orderId y1 ∈ Batch.orders b)) as [Hy1|Hy1].
    + assert (Hy2 : Order.orderId y2 ∈ Batch.orders b).
      { apply Hsame; [apply elem_of_snoc_last|done]. }
      rewrite !bool_decide_eq_true_2 by done.
      exists b. rewrite !assign_after_batches.
      split_and!; [apply elem_of_snoc_last|done..].
    + assert (Hy2 : Order.orderId y2 ∉ Batch.orders b).
      { intros Hy2. apply Hy1, Hsame; [apply elem_of_snoc_last|done]. }
      rewrite !bool_decide_eq_false_2 by done.
      destruct IH as (b' & Hb' & Hi1 & Hi2 & He1 & He2).
      * intros b0 Hb0. apply Hsame. by apply elem_of_snoc_init.
      * exists b1. split; [|done].
        apply elem_of_snoc_inv in Hb1 as [Hb1| ->]; done.
      * exists b'. split_and!; [by apply elem_of_snoc_init|done..].
Qed.

(** ** Candidates and batches *)

Section candidates.
Context (candidate : Order.t → bool) (env : Env) (st : Store).

(** The members of a group are candidates of the store with its key. *)
Lemma group_members (k : string) (g : list Order.t) (o : Order.t) :
  (k, g) ∈ group_by_key (List.filter candidate (ORDERS st)) → o ∈ g →
  o ∈ ORDERS st ∧ candidate o = true ∧ clusterKey o = k.
Proof.
  intros Hg Ho. apply group_by_key_elem in Hg as [_ ->].
  apply list_elem_of_filter in Ho as [Hk Ho].
  apply list_elem_of_In, filter_In in Ho as [Ho Hc].
  by rewrite <- list_elem_of_In in Ho.
Qed.

(** The group of a candidate. *)
Lemma candidate_group (o : Order.t) :
  o ∈ ORDERS st → candidate o = true →
  ∃ g0 g, (clusterKey o, g0 :: g) ∈ group_by_key (List.filter candidate (ORDERS st))
          ∧ o ∈ g0 :: g.
Proof.
  intros Ho Hc.
  assert (Hog : o ∈ filter (λ x, clusterKey x = clusterKey o)
                       (List.filter candidate (ORDERS st))).
  { apply list_elem_of_filter. split; [done|].
    apply list_elem_of_In, filter_In. by rewrite <- list_elem_of_In. }
  destruct (filter _ _) as [|g0 g'] eqn:Hg; [by apply elem_of_nil in Hog|].
  exists g0, g'. split; [|done]. apply group_by_key_elem. by rewrite Hg.
Qed.

(** Every order a created batch names is a candidate of the store. *)
Lemma batch_names_candidates (b : Batch.t) (oid : string) :
  b ∈ new_batches candidate env st → oid ∈ Batch.orders b →
  ∃ o, o ∈ ORDERS st ∧ candidate o = true ∧ Order.orderId o = oid
       ∧ clusterKey o = Batch.cluster_key b.
Proof.
  intros Hb Hoid.
  apply batches_for_elem in Hb as (k & g0 & g & d & j & Hg & _ & ->).
  cbn [make_batch Batch.orders Batch.cluster_key] in *.
  apply list_elem_of_fmap in Hoid as (o & -> & Ho).
  destruct (group_members _ _ _ Hg Ho) as (? & ? & ?). by exists o.
Qed.

(** With a driver in the directory, every candidate is named by a
    created batch, together with the candidates that share its key. *)
Lemma candidate_batched (o : Order.t) :
  DRIVERS st ≠ [] → o ∈ ORDERS st → candidate o = true →
  ∃ b, b ∈ new_batches candidate env st ∧ Batch.cluster_key b = clusterKey o
       ∧ ∀ o', o' ∈ ORDERS st → candidate o' = true →
               clusterKey o' = clusterKey o → Order.orderId o' ∈ Batch.orders b.
Proof.
  intros Hd Ho Hc. destruct (candidate_group o Ho Hc) as (g0 & g & Hg & Hog).
  destruct (batches_for_group env (DRIVERS st) 0 _ _ _ _ Hd Hg) as (d & j & _ & Hb).
  eexists. split; [exact Hb|]. split; [done|].
  intros o' Ho' Hc' Hk'. cbn [make_batch Batch.orders].
  apply list_elem_of_fmap_2.
  apply group_by_key_elem in Hg as [_ ->].
  apply list_elem_of_filter. split; [done|].
  apply list_elem_of_In, filter_In. by rewrite <- list_elem_of_In.
Qed.

(** Unique identifiers: the order of the store with a given identifier. *)
Lemma unique_order (o o' : Order.t) :
  NoDup (ids (ORDERS st)) → o ∈ ORDERS st → o' ∈ ORDERS st →
  Order.orderId o = Order.orderId o' → o = o'.
Proof.
  intros Hnd Ho Ho' Heq.
  apply list_elem_of_lookup in Ho as [i Hi]. apply list_elem_of_lookup in Ho' as [j Hj].
  assert (i = j) as ->; [|congruence].
  apply (NoDup_lookup _ _ _ (Order.orderId o) Hnd); unfold ids;
    rewrite list_lookup_fmap; [by rewrite Hi|by rewrite Hj, Heq].
Qed.
End candidates.

(** ** A run of [autoAssign] *)

Lemma fresh_id_BAT_nonempty (env : Env) (i : nat) : fresh_id "BAT-" env i ≠ EmptyString.
Proof. unfold fresh_id. simpl. discriminate. Qed.

Lemma new_batches_id (candidate : Order.t → bool) (env : Env) (st : Store)
    (b : Batch.t) :
  b ∈ new_batches candidate env st → Batch.id b ≠ EmptyString.
Proof.
  intros Hb. apply batches_for_elem in Hb as (k & g0 & g & d & j & _ & _ & ->).
  apply fresh_id_BAT_nonempty.
Qed.


Lemma autoAssign_with_unique (candidate : Order.t → bool) (env : Env) (st : Store) :
  NoDup (ids (ORDERS st)) →
  let newb := new_batches candidate env st in
  autoAssign_with candidate env st
  = (newb, mkStore (after_batches newb <$> ORDERS st) (DRIVERS st)
                   (BATCHES st ++ newb) (PAYOUTS st)).
Proof.
  intros Hnd. cbn zeta.
  destruct (autoAssign_with_spec candidate env st) as (H1 & H2 & _ & _ & H5).
  specialize (H5 Hnd). unfold autoAssign_with in *. cbn [fst snd ORDERS BATCHES] in *.
  by rewrite H1, H2, H5.
Qed.


Section runs.
Context (candidate : Order.t → bool).

Lemma autoAssign_with_assigns (env : Env) (st : Store) (i : nat) (o : Order.t) :
  NoDup (ids (ORDERS st)) → ORDERS st !! i = Some o → candidate o = true →
  assigned_or_unchanged (autoAssign_with candidate) env st i o.
Proof.
  intros Hnd Hi Hc. unfold assigned_or_unchanged. cbn zeta.
  rewrite (autoAssign_with_unique _ _ _ Hnd). cbn zeta. cbn [fst snd ORDERS].
  rewrite list_lookup_fmap, Hi. cbn [fmap option_fmap option_map].
  destruct (pickDriverForZone (DRIVERS st) (Order.zone o)) as [d|] eqn:Hpick.
  - assert (Hd : DRIVERS st ≠ []).
    { intros Hnil. rewrite Hnil in Hpick. discriminate. }
    assert (Ho : o ∈ ORDERS st) by (by eapply list_elem_of_lookup_2).
    destruct (candidate_batched candidate env st o Hd Ho Hc) as (b & Hb & _ & Hall).
    destruct (after_batches_cases (new_batches candidate env st) o)
      as [[_ Hnone]|(b' & Hb' & Hin' & Heq)].
    + exfalso. apply (Hnone b Hb). by apply Hall.
    + exists (Order.assign (Batch.id b') o), b'. rewrite Heq.
      split_and!; [done|done|done| |done|done|done].
      by eapply new_batches_id.
  - apply pickDriverForZone_None in Hpick.
    unfold new_batches. rewrite Hpick, batches_for_no_driver. done.
Qed.

End runs.

Section runs_batches.
Context (candidate : Order.t → bool) (env : Env) (st : Store).

(** A created batch names every candidate that has its key. *)
Lemma batch_names_cluster (b : Batch.t) (o : Order.t) :
  b ∈ new_batches candidate env st →
  o ∈ ORDERS st → candidate o = true → clusterKey o = Batch.cluster_key b →
  Order.orderId o ∈ Batch.orders b.
Proof.
  intros Hb Ho Hc Hk.
  apply batches_for_elem in Hb as (k & g0 & g & d & j & Hg & _ & ->).
  cbn [make_batch Batch.orders Batch.cluster_key] in *.
  apply list_elem_of_fmap_2.
  apply group_by_key_elem in Hg as [_ ->].
  apply list_elem_of_filter. split; [done|].
  apply list_elem_of_In, filter_In. by rewrite <- list_elem_of_In.
Qed.

Lemma new_batches_exactly :
  batches_exactly candidate (autoAssign_with candidate) env st.
Proof.
  unfold batches_exactly. cbn zeta.
  destruct (autoAssign_with_spec candidate env st) as (H1 & _ & _ & _ & H5).
  rewrite H1. split_and!.
  - intros Hnil. unfold new_batches. rewrite Hnil. apply batches_for_no_driver.
  - intros Hd. unfold new_batches. rewrite batches_for_orders by done.
    unfold ids. by rewrite group_by_key_concat.
  - intros b oid Hb Hoid.
    destruct (batch_names_candidates _ _ _ _ _ Hb Hoid) as (o & ? & ? & ? & _).
    by exists o.
  - intros Hnd i o Hi Hc. rewrite (H5 Hnd), list_lookup_fmap, Hi.
    assert (Ho : o ∈ ORDERS st) by (by eapply list_elem_of_lookup_2).
    assert (Hnone : ∀ b, b ∈ new_batches candidate env st →
                         Order.orderId o ∉ Batch.orders b).
    { intros b Hb Hin.
      destruct (batch_names_candidates _ _ _ _ _ Hb Hin) as (o' & Ho' & Hc' & Heq & _).
      assert (o' = o) as -> by (by eapply unique_order). congruence. }
    split; [|done]. cbn. f_equal.
    destruct (after_batches_cases (new_batches candidate env st) o)
      as [[Heq _]|(b & Hb & Hin & _)]; [done|].
    by destruct (Hnone b Hb).
Qed.


Lemma new_batches_together (o1 o2 : Order.t) :
  o1 ∈ ORDERS st → o2 ∈ ORDERS st → clusterKey o1 = clusterKey o2 →
  batched_together candidate (autoAssign_with candidate) env st o1 o2.
Proof.
  intros Ho1 Ho2 Hk Hc1 Hc2 Hd. cbn zeta.
  destruct (autoAssign_with_spec candidate env st) as (H1 & _ & _ & _ & H5).
  rewrite H1.
  destruct (candidate_batched candidate env st o1 Hd Ho1 Hc1) as (b & Hb & Hkb & Hall).
  destruct (decide (NoDup (ids (ORDERS st)))) as [Hnd|Hdup].
  2:{ exists b. split_and!; [done|by apply Hall|by apply Hall|done]. }
  destruct (after_batches_together (new_batches candidate env st) o1 o2)
    as (b' & Hb' & Hi1 & Hi2 & He1 & He2).
  { intros b0 Hb0. split; intros Hin.
    - destruct (batch_names_candidates _ _ _ _ _ Hb0 Hin) as (o & Ho & Hc & Heq & Hko).
      assert (o = o1) as -> by (by eapply unique_order).
      apply batch_names_cluster; [done..|congruence].
    - destruct (batch_names_candidates _ _ _ _ _ Hb0 Hin) as (o & Ho & Hc & Heq & Hko).
      assert (o = o2) as -> by (by eapply unique_order).
      apply batch_names_cluster; [done..|congruence]. }
  { exists b. split; [done|]. by apply Hall. }
  exists b'. split_and!; [done..|].
  intros _ i o Hi Ho. rewrite (H5 Hnd), list_lookup_fmap, Hi. cbn.
  by destruct Ho as [-> | ->]; f_equal.
Qed.
End runs_batches.

(** ** The two filters *)

Lemma paidOnly_candidate_iff (o : Order.t) :
  PaidOnly.candidate o = true ↔
  Order.status o = "paid" ∧ truthy (Order.assigned_batch_id o) = false.
Proof.
  unfold PaidOnly.candidate.
  rewrite andb_true_iff, bool_decide_eq_true, negb_true_iff. done.
Qed.

Lemma approvedOrPaid_candidate_iff (o : Order.t) :
  ApprovedOrPaid.candidate o = true ↔
  (Order.status o = "approved" ∨ Order.status o = "paid")
  ∧ truthy (Order.assigned_batch_id o) = false.
Proof.
  unfold ApprovedOrPaid.candidate.
  rewrite andb_true_iff, orb_true_iff, !bool_decide_eq_true, negb_true_iff. done.
Qed.



(** C1, amended. The orders [autoAssign] selects are the orders whose batch
    reference is unset and whose status is [paid] or, in
    [yithume-lite-pro.js], [approved] or [paid]: the batches of a run list
    every such order once when the directory has a driver and nothing
    when it has none, they list no other order, and an order outside the
    filter is neither listed nor changed (identifiers being unique). *)
Theorem autoAssign_eligibility (env : Env) (st : Store) :
  (∀ o, PaidOnly.candidate o = true ↔
        Order.status o = "paid" ∧ truthy (Order.assigned_batch_id o) = false)
  ∧ (∀ o, ApprovedOrPaid.candidate o = true ↔
          (Order.status o = "approved" ∨ Order.status o = "paid")
          ∧ truthy (Order.assigned_batch_id o) = false)
  ∧ batches_exactly PaidOnly.candidate PaidOnly.autoAssign env st
  ∧ batches_exactly ApprovedOrPaid.candidate ApprovedOrPaid.autoAssign env st.
Proof.
  split_and!.
  - apply paidOnly_candidate_iff.
  - apply approvedOrPaid_candidate_iff.
  - apply new_batches_exactly.
  - apply new_batches_exactly.
Qed.

Lemma autoAssign_eligibility_witness :
  concat (Batch.orders <$> (ApprovedOrPaid.autoAssign env_sample store_sample).1)
    ≡ₚ ids (List.filter ApprovedOrPaid.candidate (ORDERS store_sample))
  ∧ ORDERS (ApprovedOrPaid.autoAssign env_sample store_sample).2 !! 3%nat
    = Some order_pending
  ∧ ORDERS (PaidOnly.autoAssign env_sample store_sample).2 !! 2%nat
    = Some order_approved.
Proof.
  destruct (autoAssign_eligibility env_sample store_sample)
    as (_ & _ & (_ & _ & _ & Hpaid) & (_ & Hperm & _ & Happroved)).
  assert (Hnd : NoDup (ids (ORDERS store_sample))).
  { apply (bool_decide_unpack _). vm_compute. exact I. }
  split; [apply Hperm; discriminate|]. split.
  - apply (Happroved Hnd 3%nat order_pending); reflexivity.
  - apply (Hpaid Hnd 2%nat order_approved); reflexivity.
Defined.

(** C1 as stated fails: [yithume-lite-pro.js] batches an approved order. *)
Lemma autoAssign_batches_approved :
  NoDup (ids (ORDERS store_sample))
  ∧ order_approved ∈ ORDERS store_sample
  ∧ Order.status order_approved = "approved"
  ∧ ∃ b, b ∈ (ApprovedOrPaid.autoAssign env_sample store_sample).1
         ∧ Order.orderId order_approved ∈ Batch.orders b.
Proof.
  split_and!.
  - apply (bool_decide_unpack _). vm_compute. exact I.
  - apply list_elem_of_lookup. by exists 2%nat.
  - reflexivity.
  - eexists. split.
    + apply list_elem_of_lookup. exists 1%nat. vm_compute. reflexivity.
    + apply (bool_decide_unpack _). vm_compute. exact I.
Qed.

(** Why the last part of C1 asks for distinct identifiers: when a pending
    order and a paid order carry one identifier, the batch made for the
    paid order lists that identifier, and the marking loop, which looks an
    order up by its identifier, marks the pending order. *)
Lemma autoAssign_marks_repeated_identifier :
  Order.status <$> ORDERS store_repeat_pending = ["pending"; "paid"]
  ∧ Order.status <$> ORDERS (ApprovedOrPaid.autoAssign env_sample store_repeat_pending).2
    = ["assigned"; "paid"]
  ∧ Order.status <$> ORDERS (PaidOnly.autoAssign env_sample store_repeat_pending).2
    = ["assigned"; "paid"]
  ∧ Batch.orders <$> (PaidOnly.autoAssign env_sample store_repeat_pending).1
    = [["YI-123456"]].
Proof. split_and!; vm_compute; reflexivity. Qed.










(** C9. Two orders of the store with the same zone and the same address
    after lower-casing, collapsing white space and trimming have the same
    cluster key, and a run of [autoAssign] that takes them, a driver being
    there, lists both in one batch; identifiers being unique, both end
    with the reference of that batch. *)
Theorem same_address_same_batch (env : Env) (st : Store) (o1 o2 : Order.t) :
  o1 ∈ ORDERS st → o2 ∈ ORDERS st →
  Order.zone o1 = Order.zone o2 →
  normalized_address o1 = normalized_address o2 →
  clusterKey o1 = clusterKey o2
  ∧ batched_together PaidOnly.candidate PaidOnly.autoAssign env st o1 o2
  ∧ batched_together ApprovedOrPaid.candidate ApprovedOrPaid.autoAssign env st o1 o2.
Proof.
  intros Ho1 Ho2 Hzone Haddr.
  assert (Hk : clusterKey o1 = clusterKey o2).
  { unfold clusterKey. fold (normalized_address o1) (normalized_address o2).
    by rewrite Hzone, Haddr. }
  split_and!; [done| |]; by apply new_batches_together.
Qed.

Lemma same_address_same_batch_witness :
  clusterKey order_main_1 = clusterKey order_main_2
  ∧ (∃ b, b ∈ (PaidOnly.autoAssign env_sample store_sample).1
          ∧ "YI-000001" ∈ Batch.orders b ∧ "YI-000002" ∈ Batch.orders b)
  ∧ (∃ b, b ∈ (ApprovedOrPaid.autoAssign env_sample store_sample).1
          ∧ "YI-000001" ∈ Batch.orders b ∧ "YI-000002" ∈ Batch.orders b).
Proof.
  destruct (same_address_same_batch env_sample store_sample
              order_main_1 order_main_2) as (Hk & H1 & H2).
  - apply list_elem_of_lookup. by exists 0%nat.
  - apply list_elem_of_lookup. by exists 1%nat.
  - reflexivity.
  - vm_compute. reflexivity.
  - split; [exact Hk|]. split.
    + destruct H1 as (b & Hb & Hi1 & Hi2 & _);
        [reflexivity|reflexivity|discriminate|].
      exists b. split; [exact Hb|]. split; [exact Hi1|exact Hi2].
    + destruct H2 as (b & Hb & Hi1 & Hi2 & _);
        [reflexivity|reflexivity|discriminate|].
      exists b. split; [exact Hb|]. split; [exact Hi1|exact Hi2].
Defined.

(** ** Completing a batch *)

Lemma ids_alter (f : Order.t → Order.t) (i : nat) (os : list Order.t) :
  (∀ o, Order.orderId (f o) = Order.orderId o) →
  ids (alter f i os) = ids os.
Proof.
  intros Hf. unfold ids.
  rewrite (list_fmap_alter Order.orderId f id) by (by apply Forall_forall).
  by apply list_alter_id.
Qed.

Lemma alter_same_or (f : Order.t → Order.t) (i : nat) (os : list Order.t) :
  Forall2 (λ o o', o' = o ∨ o' = f o) os (alter f i os).
Proof.
  revert i. induction os as [|o os IH]; intros i; [constructor|].
  destruct i as [|i]; simpl.
  - constructor; [by right|]. apply Forall_Forall2_diag, Forall_forall. by left.
  - constructor; [by left|apply IH].
Qed.

Lemma ids_mark_delivered (os : list Order.t) (oid : string) :
  ids (mark_delivered os oid) = ids os.
Proof.
  unfold mark_delivered. destruct (findIndex _ os); [|done]. by apply ids_alter.
Qed.

Lemma mark_delivered_rel (os : list Order.t) (oid : string) :
  Forall2 same_or_delivered os (mark_delivered os oid).
Proof.
  unfold mark_delivered. destruct (findIndex _ os).
  - apply alter_same_or.
  - apply Forall_Forall2_diag, Forall_forall. by left.
Qed.

Lemma same_or_delivered_trans (o o1 o' : Order.t) :
  same_or_delivered o o1 → same_or_delivered o1 o' → same_or_delivered o o'.
Proof. unfold same_or_delivered. intros [->| ->] [->| ->]; auto. Qed.

Lemma same_or_delivered_keeps (o o' : Order.t) :
  same_or_delivered o o' → Order.status o = "delivered" → Order.status o' = "delivered".
Proof. by intros [->| ->]. Qed.

(** The loop [for (const oid of batches[bIdx].orders)]. *)
Lemma foldl_mark_delivered (oids : list string) (os : list Order.t) :
  let os' := foldl mark_delivered os oids in
  ids os' = ids os
  ∧ Forall2 same_or_delivered os os'
  ∧ (∀ oid j, oid ∈ oids → findIndex (has_orderId oid) os = Some j →
       ∃ o', os' !! j = Some o' ∧ Order.status o' = "delivered")
  ∧ (∀ j o, os !! j = Some o → Order.orderId o ∉ oids → os' !! j = Some o).
Proof.
  revert os. induction oids as [|oid0 oids IH]; intros os; cbn zeta.
  - split_and!; [done| |by intros ?? ?%elem_of_nil|done].
    apply Forall_Forall2_diag, Forall_forall. by left.
  - change (foldl mark_delivered os (oid0 :: oids))
      with (foldl mark_delivered (mark_delivered os oid0) oids).
    destruct (IH (mark_delivered os oid0)) as (Hids & Hrel & Hdel & Hkeep).
    split_and!.
    + by rewrite Hids, ids_mark_delivered.
    + eapply Forall2_trans; [apply same_or_delivered_trans|apply mark_delivered_rel|done].
    + intros oid j Hoid Hj.
      destruct (decide (oid = oid0)) as [->|Hne].
      * assert (Hj' := Hj). apply findIndex_Some in Hj' as (o & Ho & _ & _).
        assert (H1 : mark_delivered os oid0 !! j = Some (Order.deliver o)).
        { unfold mark_delivered. rewrite Hj, list_lookup_alter_eq, Ho. done. }
        destruct (Forall2_lookup_l _ _ _ _ _ Hrel H1) as (o' & Ho' & Hoo').
        exists o'. split; [done|]. by eapply same_or_delivered_keeps.
      * apply elem_of_cons in Hoid as [?|Hoid]; [done|].
        apply (Hdel oid j Hoid).
        by rewrite findIndex_orderId, ids_mark_delivered, <- findIndex_orderId.
    + intros j o Ho Hnotin. apply not_elem_of_cons in Hnotin as [Hne Hnotin].
      apply Hkeep; [|done]. unfold mark_delivered.
      destruct (findIndex _ os) as [idx|] eqn:Hidx; [|done].
      rewrite list_lookup_alter_ne; [done|]. intros ->.
      apply findIndex_Some in Hidx as (o0 & Ho0 & Hp & _).
      apply has_orderId_true in Hp. congruence.
Qed.

(** C7. [completeBatch] returns the not-found signal exactly when no batch
    has the identifier, and then leaves the store as it is; when a batch
    has it, the call returns true, the first such batch becomes
    [completed] with the instant of the call, and every identifier of its
    order list has the order it finds in the store set to [delivered];
    drivers, payouts and the orders the batch does not list are unchanged. *)
Theorem completeBatch_spec (now : Z) (batchId : string) (st : Store) :
  let r := completeBatch now batchId st in
  (r.1 = false ↔ ∀ b, b ∈ BATCHES st → Batch.id b ≠ batchId)
  ∧ (r.1 = false → r.2 = st)
  ∧ (∀ bIdx b,
       BATCHES st !! bIdx = Some b → Batch.id b = batchId →
       (∀ j b', (j < bIdx)%nat → BATCHES st !! j = Some b' → Batch.id b' ≠ batchId) →
       r.1 = true
       ∧ (∃ b', BATCHES r.2 !! bIdx = Some b'
                ∧ Batch.status b' = "completed"
                ∧ Batch.completed_at b' = Some now
                ∧ Batch.id b' = batchId ∧ Batch.orders b' = Batch.orders b)
       ∧ (∀ j, j ≠ bIdx → BATCHES r.2 !! j = BATCHES st !! j)
       ∧ DRIVERS r.2 = DRIVERS st
       ∧ PAYOUTS r.2 = PAYOUTS st
       ∧ (∀ oid j, oid ∈ Batch.orders b →
            findIndex (has_orderId oid) (ORDERS st) = Some j →
            ∃ o', ORDERS r.2 !! j = Some o' ∧ Order.status o' = "delivered"
                  ∧ Order.orderId o' = oid)
       ∧ (∀ j o, ORDERS st !! j = Some o → Order.orderId o ∉ Batch.orders b →
            ORDERS r.2 !! j = Some o)).
Proof.
  cbn zeta. unfold completeBatch.
  destruct (findIndex (has_batch_id batchId) (BATCHES st)) as [idx|] eqn:Hidx;
    cbn [fst snd].
  - split_and!.
    + split; [discriminate|]. intros Hnone.
      apply findIndex_Some in Hidx as (b & Hb & Hp & _).
      apply has_batch_id_true in Hp.
      destruct (Hnone b); [by eapply list_elem_of_lookup_2|done].
    + discriminate.
    + intros bIdx b Hb Hid Hfirst.
      assert (idx = bIdx) as ->.
      { apply findIndex_Some in Hidx as (b0 & Hb0 & Hp0 & Hfirst0).
        apply has_batch_id_true in Hp0.
        destruct (Nat.lt_trichotomy idx bIdx) as [Hlt|[Heq|Hgt]]; [|done|].
        - by destruct (Hfirst idx b0 Hlt Hb0).
        - specialize (Hfirst0 bIdx b Hgt Hb).
          assert (has_batch_id batchId b = true) by (by apply has_batch_id_true).
          congruence. }
      rewrite Hb. cbn [from_option BATCHES DRIVERS PAYOUTS ORDERS].
      destruct (foldl_mark_delivered (Batch.orders b) (ORDERS st))
        as (Hids & Hrel & Hdel & Hkeep).
      split_and!; [done| | |done|done| |done].
      * exists (Batch.complete now b). rewrite list_lookup_alter_eq, Hb. done.
      * intros j Hj. by rewrite list_lookup_alter_ne.
      * intros oid j Hoid Hj. destruct (Hdel oid j Hoid Hj) as (o' & Ho' & Hst).
        exists o'. split_and!; [done|done|].
        apply findIndex_Some in Hj as (o & Ho & Hp & _).
        apply has_orderId_true in Hp.
        assert (ids (foldl mark_delivered (ORDERS st) (Batch.orders b)) !! j
                = ids (ORDERS st) !! j) as Hj by (by rewrite Hids).
        unfold ids in Hj. rewrite !list_lookup_fmap, Ho', Ho in Hj.
        cbn in Hj. congruence.
  - split_and!.
    + split; [|done]. intros _ b Hb Hid.
      rewrite findIndex_None in Hidx. specialize (Hidx b Hb).
      assert (has_batch_id batchId b = true) by (by apply has_batch_id_true).
      congruence.
    + done.
    + intros bIdx b Hb Hid _. exfalso.
      rewrite findIndex_None in Hidx.
      specialize (Hidx b ltac:(by eapply list_elem_of_lookup_2)).
      assert (has_batch_id batchId b = true) by (by apply has_batch_id_true).
      congruence.
Qed.

Lemma completeBatch_spec_witness :
  (completeBatch 1609754400000 "BAT-123456-42"
     (PaidOnly.autoAssign env_sample store_sample).2).1 = true
  ∧ Order.status <$> ORDERS (completeBatch 1609754400000 "BAT-123456-42"
                               (PaidOnly.autoAssign env_sample store_sample).2).2
    = ["delivered"; "delivered"; "approved"; "pending"]
  ∧ (completeBatch 1609754400000 "BAT-000000-0" store_sample).1 = false.
Proof.
  pose proof (completeBatch_spec 1609754400000 "BAT-123456-42"
                (PaidOnly.autoAssign env_sample store_sample).2) as H.
  cbn zeta in H. destruct H as (_ & _ & H).
  split_and!.
  - eapply (H 0%nat); [vm_compute; reflexivity|vm_compute; reflexivity|].
    intros j b' Hj. lia.
  - vm_compute. reflexivity.
  - vm_compute. reflexivity.
Defined.

(** ** The calendar *)

Lemma year_length (y : Z) : 365 <= DayFromYear (y + 1) - DayFromYear y <= 366.
Proof. unfold DayFromYear. Z.div_mod_to_equations. lia. Qed.

(** [YearFromDay] is the year of the day: the last year that starts on or
    before it. *)
Lemma YearFromDay_spec (d : Z) :
  DayFromYear (YearFromDay d) <= d < DayFromYear (YearFromDay d + 1).
Proof.
  unfold YearFromDay.
  set (y0 := 1970 + 400 * d / 146097).
  assert (H1 : DayFromYear (y0 - 1) <= d).
  { unfold DayFromYear, y0. Z.div_mod_to_equations. lia. }
  assert (H2 : d < DayFromYear (y0 + 2)).
  { unfold DayFromYear, y0. Z.div_mod_to_equations. lia. }
  destruct (Z.ltb_spec d (DayFromYear y0)).
  - replace (y0 - 1 + 1) with y0 by lia. lia.
  - destruct (Z.leb_spec (DayFromYear (y0 + 1)) d).
    + replace (y0 + 1 + 1) with (y0 + 2) by lia. lia.
    + lia.
Qed.

Lemma Day_mul (d : Z) : Day (d * msPerDay) = d.
Proof. unfold Day, msPerDay. by rewrite Z.div_mul. Qed.

Lemma startOfMonday_day (t : Z) :
  startOfMonday t = (Day t - (getDay t + 6) mod 7) * msPerDay.
Proof. unfold startOfMonday, addDate, setHours. lia. Qed.

Lemma startOfMonday_getDay (t : Z) : getDay (startOfMonday t) = 1.
Proof.
  rewrite startOfMonday_day. unfold getDay at 1. rewrite Day_mul.
  unfold getDay. Z.div_mod_to_equations. lia.
Qed.

Lemma startOfMonday_range (t : Z) :
  startOfMonday t <= t < startOfMonday t + 7 * msPerDay.
Proof.
  rewrite startOfMonday_day. unfold getDay, Day, msPerDay.
  Z.div_mod_to_equations. lia.
Qed.

Lemma Qceiling_sevenths (n : Z) : Qceiling (inject_Z n / 7) = (n + 6) / 7.
Proof.
  unfold Qceiling, Qfloor, Qdiv, Qmult, Qinv, Qopp, inject_Z. simpl.
  Z.div_mod_to_equations. lia.
Qed.

(** The week number of a Monday, in integers. *)
Lemma weekNumber_monday (m : Z) :
  ¬ (0 <= getFullYear (m * msPerDay) <= 99) → (m + 4) mod 7 = 1 →
  weekNumber (m * msPerDay) = sunday_week (m * msPerDay)
  ∧ 1 <= sunday_week (m * msPerDay) <= 53.
Proof.
  intros Hyear Hmon. unfold weekNumber, sunday_week, Date_jan1, Math_ceil.
  set (y := getFullYear (m * msPerDay)) in *.
  assert (Hy : (0 <=? y) && (y <=? 99) = false).
  { apply andb_false_iff. rewrite Z.leb_gt, Z.leb_gt. lia. }
  rewrite Hy. unfold getDay. rewrite !Day_mul.
  assert (Hspec : DayFromYear y <= m < DayFromYear (y + 1)).
  { unfold y, getFullYear. rewrite Day_mul. apply YearFromDay_spec. }
  pose proof (year_length y) as Hlen.
  set (d0 := DayFromYear y) in *.
  rewrite (Qceiling_comp _ (inject_Z (m - d0 + (d0 + 4) mod 7 + 1) / 7)).
  2:{ replace (m * msPerDay - d0 * msPerDay) with ((m - d0) * 86400000)
        by (unfold msPerDay; lia).
      rewrite !inject_Z_plus, inject_Z_mult. change (inject_Z 1) with 1%Q.
      field. }
  rewrite Qceiling_sevenths. split.
  - Z.div_mod_to_equations. lia.
  - Z.div_mod_to_equations. lia.
Qed.

Lemma padStart_two_digits (w : Z) :
  1 <= w <= 53 → padStart 2 "0" (pretty w) = two_digits w.
Proof.
  intros Hw.
  assert (Hn : ∃ n : nat, w = Z.of_nat n ∧ (n < 54)%nat).
  { exists (Z.to_nat w). lia. }
  destruct Hn as (n & -> & Hn).
  do 54 (destruct n as [|n]; [vm_compute; reflexivity|]). lia.
Qed.

(** ** Weekly payouts *)

Lemma generateWeeklyPayouts_label (env : Env) (forDate : Z) (st : Store)
    (p : Payout.t) :
  p ∈ (generateWeeklyPayouts env forDate st).1 →
  Payout.week_label p = weekLabel (startOfMonday forDate).
Proof.
  unfold generateWeeklyPayouts. cbn [fst]. intros Hp.
  apply elem_of_lookup_imap in Hp as (i & [id g] & -> & _). done.
Qed.

(** C4, amended. Every payout record [generateWeeklyPayouts] creates carries
    the label [<year>-W<ww>], where the year is the calendar year of the
    Monday that starts the window and [ww], two digits from 01 to 53, is the
    week number the code computes for that Monday: the weeks of the year
    counted from Sunday, with 1 January in week 1. (Years 0 to 99, which
    [new Date(y, 0, 1)] reads as 1900 + y, are left out.) *)
Theorem payout_week_label (env : Env) (forDate : Z) (st : Store) (p : Payout.t) :
  let monday := startOfMonday forDate in
  ¬ (0 <= getFullYear monday <= 99) →
  p ∈ (generateWeeklyPayouts env forDate st).1 →
  getDay monday = 1
  ∧ monday <= forDate < monday + 7 * msPerDay
  ∧ weekNumber monday = sunday_week monday
  ∧ 1 <= sunday_week monday <= 53
  ∧ Payout.week_label p
    = pretty (getFullYear monday) +:+ "-W" +:+ two_digits (sunday_week monday).
Proof.
  cbn zeta. intros Hyear Hp.
  pose proof (startOfMonday_getDay forDate) as Hmon.
  rewrite (generateWeeklyPayouts_label _ _ _ _ Hp).
  split; [done|]. split; [apply startOfMonday_range|].
  rewrite startOfMonday_day in *.
  set (m := Day forDate - (getDay forDate + 6) mod 7) in *.
  destruct (weekNumber_monday m Hyear) as [Hweek Hrange].
  { unfold getDay in Hmon. by rewrite Day_mul in Hmon. }
  split; [done|]. split; [done|]. unfold weekLabel. rewrite Hweek.
  by rewrite padStart_two_digits.
Qed.

Lemma payout_week_label_witness :
  let monday := startOfMonday date_2021_01_06 in
  let p := make_payout env_sample monday (endOfSunday monday) (weekLabel monday)
                       0 ("DRV-000001", mkGrouped driver_sample 35 1 2) in
  getDay monday = 1
  ∧ monday <= date_2021_01_06 < monday + 7 * msPerDay
  ∧ weekNumber monday = sunday_week monday
  ∧ 1 <= sunday_week monday <= 53
  ∧ Payout.week_label p
    = pretty (getFullYear monday) +:+ "-W" +:+ two_digits (sunday_week monday).
Proof.
  apply (payout_week_label env_sample date_2021_01_06 store_done).
  - vm_compute. intros [_ H]. apply H. reflexivity.
  - apply list_elem_of_lookup. exists 0%nat. vm_compute. reflexivity.
Defined.

(** C4 as stated fails: for the week of Monday 4 January 2021, which is
    ISO week 2021-W01, the payout is labelled 2021-W02. *)
Lemma payout_week_label_not_iso :
  ∃ p, (generateWeeklyPayouts env_sample date_2021_01_06 store_done).1 = [p]
       ∧ Payout.week_label p = "2021-W02"
       ∧ iso_week_label (startOfMonday date_2021_01_06) = "2021-W01".
Proof.
  eexists. split; [vm_compute; reflexivity|]. split; vm_compute; reflexivity.
Qed.

(** C8. When the window of the reference date holds one completed batch,
    [generateWeeklyPayouts] appends one payout record, for the driver of
    that batch, and its earnings are the driver earnings of the batch. *)
Theorem weekly_payout_single (env : Env) (forDate : Z) (st : Store) (b : Batch.t) :
  let monday := startOfMonday forDate in
  let sunday := endOfSunday monday in
  List.filter (in_window monday sunday) (BATCHES st) = [b] →
  let r := generateWeeklyPayouts env forDate st in
  ∃ p, r.1 = [p]
       ∧ PAYOUTS r.2 = PAYOUTS st ++ [p]
       ∧ Payout.earnings p = Batch.driver_earnings b
       ∧ Payout.driver p = Batch.driver b
       ∧ Payout.batches_count p = 1
       ∧ Payout.status p = "pending".
Proof.
  cbn zeta. intros Hone. unfold generateWeeklyPayouts. rewrite Hone.
  cbn [foldl grouped_add imap fst snd PAYOUTS].
  eexists. split; [reflexivity|]. split; [reflexivity|].
  cbn [make_payout grouped_bump Payout.earnings Payout.driver Payout.batches_count
       Payout.status g_earnings g_driver g_batches].
  split_and!; [|done|done|done].
  rewrite Z.add_0_l. apply Math_round_inject_Z.
Qed.

Lemma weekly_payout_single_witness :
  let r := generateWeeklyPayouts env_sample date_2021_01_06 store_done in
  ∃ p, r.1 = [p]
       ∧ PAYOUTS r.2 = PAYOUTS store_done ++ [p]
       ∧ Payout.earnings p = Batch.driver_earnings batch_done
       ∧ Payout.driver p = Batch.driver batch_done
       ∧ Payout.batches_count p = 1
       ∧ Payout.status p = "pending".
Proof.
  apply (weekly_payout_single env_sample date_2021_01_06 store_done batch_done).
  vm_compute. reflexivity.
Defined.

(** * The rest of the pipeline *)

(** ** More on the earnings split *)

Lemma Math_round_mono (x y : Q) : (x <= y)%Q → Math_round x <= Math_round y.
Proof. intros Hxy. unfold Math_round. apply Qfloor_resp_le. lra. Qed.

Lemma Math_round_nonneg (x : Q) : (- (1 # 2) <= x)%Q → 0 <= Math_round x.
Proof.
  intros Hx. unfold Math_round. change 0 with (Qfloor 0).
  apply Qfloor_resp_le. lra.
Qed.

Lemma inject_Z_nonneg (k : Z) : 0 <= k → (0 <= inject_Z k)%Q.
Proof. intros Hk. change 0%Q with (inject_Z 0). by rewrite <- Zle_Qle. Qed.

(** The amount [first + rest] rounded into the driver total. *)
Lemma driver_amount_bounds (n : Z) (f : Q) :
  1 <= n → (0 <= f)%Q →
  let x := (f * CONFIG.DRIVER_SHARE_FIRST
            + inject_Z (Z.max 0 (n - 1)) * f * CONFIG.DRIVER_SHARE_NEXT)%Q in
  (0 <= x)%Q ∧ (x <= inject_Z n * f)%Q.
Proof.
  intros Hn Hf. cbn zeta. unfold CONFIG.DRIVER_SHARE_FIRST, CONFIG.DRIVER_SHARE_NEXT.
  rewrite Z.max_r by lia.
  assert (Hk : (0 <= inject_Z (n - 1) * f)%Q).
  { apply Qmult_le_0_compat; [apply inject_Z_nonneg; lia|done]. }
  assert (Hnf : (inject_Z n * f == f + inject_Z (n - 1) * f)%Q).
  { replace n with (1 + (n - 1)) at 1 by lia. rewrite inject_Z_plus.
    change (inject_Z 1) with 1%Q. ring. }
  rewrite Hnf. set (kf := (inject_Z (n - 1) * f)%Q) in *. split; lra.
Qed.

(** X1. For at least one order and a fee that is not negative, neither the
    driver total nor the platform margin [computeClusterEarnings] returns is
    negative, and the driver total is at most the rounded sum of the fees. *)
Theorem computeClusterEarnings_nonnegative (n : Z) (f : Q) :
  1 <= n → (0 <= f)%Q →
  let e := computeClusterEarnings n f in
  0 <= driverTotal e
  ∧ 0 <= platformDeliveryMargin e
  ∧ driverTotal e <= Math_round (inject_Z n * f).
Proof.
  intros Hn Hf. cbn zeta. unfold computeClusterEarnings.
  cbn [driverTotal platformDeliveryMargin].
  destruct (driver_amount_bounds n f Hn Hf) as [Hlo Hhi]. cbn zeta in Hlo, Hhi.
  set (x := (f * CONFIG.DRIVER_SHARE_FIRST + _)%Q) in *.
  destruct (Math_round_err x) as [_ Herr].
  split_and!.
  - apply Math_round_nonneg. lra.
  - apply Math_round_nonneg. lra.
  - by apply Math_round_mono.
Qed.

Lemma computeClusterEarnings_nonnegative_witness :
  let e := computeClusterEarnings 3 (55 # 2) in
  0 <= driverTotal e
  ∧ 0 <= platformDeliveryMargin e
  ∧ driverTotal e <= Math_round (inject_Z 3 * (55 # 2)).
Proof.
  apply (computeClusterEarnings_nonnegative 3 (55 # 2)).
  - lia.
  - vm_compute. discriminate.
Defined.

(** X2. A batch of one order leaves the platform nothing, whatever the
    fee: the driver total is the rounded fee and the margin is 0. *)
Theorem computeClusterEarnings_single (f : Q) :
  computeClusterEarnings 1 f = mkEarnings (Math_round f) 0.
Proof.
  unfold computeClusterEarnings.
  change (Z.max 0 (1 - 1)) with 0. change (inject_Z 0) with 0%Q.
  change (inject_Z 1) with 1%Q.
  set (d := Math_round _).
  assert (Hd : d = Math_round f).
  { apply Math_round_comp. unfold CONFIG.DRIVER_SHARE_FIRST. ring. }
  f_equal; [exact Hd|]. rewrite Hd.
  apply (round_half_up_unique (1 * f - inject_Z (Math_round f))).
  - apply Math_round_half_up.
  - destruct (Math_round_half_up f) as [Hl Hh].
    unfold round_half_up. change (inject_Z 0) with 0%Q. split; lra.
Qed.

(** X3. For a fee that is not negative, a larger cluster never pays the
    driver less. *)
Theorem computeClusterEarnings_monotone (n n' : Z) (f : Q) :
  (0 <= f)%Q → n <= n' →
  driverTotal (computeClusterEarnings n f)
  <= driverTotal (computeClusterEarnings n' f).
Proof.
  intros Hf Hn. unfold computeClusterEarnings. cbn [driverTotal].
  apply Math_round_mono. unfold CONFIG.DRIVER_SHARE_NEXT.
  assert (Hk : (inject_Z (Z.max 0 (n - 1)) <= inject_Z (Z.max 0 (n' - 1)))%Q).
  { rewrite <- Zle_Qle. lia. }
  assert (Hm : (inject_Z (Z.max 0 (n - 1)) * f
                <= inject_Z (Z.max 0 (n' - 1)) * f)%Q).
  { by apply Qmult_le_compat_r. }
  set (a := (inject_Z (Z.max 0 (n - 1)) * f)%Q) in *.
  set (b := (inject_Z (Z.max 0 (n' - 1)) * f)%Q) in *.
  lra.
Qed.

Lemma computeClusterEarnings_monotone_witness :
  driverTotal (computeClusterEarnings 2 33)
  <= driverTotal (computeClusterEarnings 5 33).
Proof.
  apply (computeClusterEarnings_monotone 2 5 33).
  - vm_compute. discriminate.
  - lia.
Defined.

(** ** The driver directory *)

Lemma find_first {A} (p : A → bool) (l : list A) (x : A) :
  List.find p l = Some x ↔
  ∃ l1 l2, l = l1 ++ x :: l2 ∧ p x = true ∧ ∀ y, y ∈ l1 → p y = false.
Proof.
  induction l as [|a l IH]; simpl.
  - split; [discriminate|]. intros (l1 & l2 & Hl & _). by destruct l1.
  - destruct (p a) eqn:Hpa.
    + split.
      * intros [= ->]. exists [], l. split_and!; [done|done|].
        intros y Hy. by apply elem_of_nil in Hy.
      * intros (l1 & l2 & Hl & Hpx & Hnone). destruct l1 as [|b l1].
        -- by injection Hl as -> _.
        -- injection Hl as -> _. specialize (Hnone b ltac:(left)). congruence.
    + rewrite IH. split.
      * intros (l1 & l2 & -> & Hpx & Hnone). exists (a :: l1), l2.
        split_and!; [done|done|]. intros y Hy.
        apply elem_of_cons in Hy as [->|Hy]; [done|by apply Hnone].
      * intros (l1 & l2 & Hl & Hpx & Hnone). destruct l1 as [|b l1].
        -- injection Hl as -> _. congruence.
        -- injection Hl as -> ->. exists l1, l2. split_and!; [done|done|].
           intros y Hy. apply Hnone. by right.
Qed.

Lemma find_none_iff {A} (p : A → bool) (l : list A) :
  List.find p l = None ↔ ∀ y, y ∈ l → p y = false.
Proof.
  induction l as [|a l IH]; simpl.
  - split; [|done]. intros _ y Hy. by apply elem_of_nil in Hy.
  - destruct (p a) eqn:Hpa.
    + split; [discriminate|]. intros Hall. specialize (Hall a ltac:(left)). congruence.
    + rewrite IH. split.
      * intros Hall y Hy. apply elem_of_cons in Hy as [->|Hy]; [done|by apply Hall].
      * intros Hall y Hy. apply Hall. by right.
Qed.

Lemma find_snoc {A} (p : A → bool) (l : list A) (x : A) :
  List.find p (l ++ [x])
  = match List.find p l with
    | Some y => Some y
    | None => if p x then Some x else None
    end.
Proof.
  induction l as [|a l IH]; simpl; [done|]. by destruct (p a).
Qed.

(** X4. [pickDriverForZone] answers with no driver only for an empty
    directory; otherwise with the first driver that is active in the zone
    or, when no driver is, with the first driver of the directory, whatever
    its zone and whether it is active or not. *)
Theorem pickDriverForZone_spec (drivers : list Driver.t) (zone : string) :
  match pickDriverForZone drivers zone with
  | None => drivers = []
  | Some d =>
      (∃ before after, drivers = before ++ d :: after
                       ∧ serves zone d = true
                       ∧ ∀ d', d' ∈ before → serves zone d' = false)
      ∨ ((∀ d', d' ∈ drivers → serves zone d' = false)
         ∧ head drivers = Some d)
  end.
Proof.
  unfold pickDriverForZone. fold (serves zone).
  destruct (List.find (serves zone) drivers) as [d|] eqn:Hfind.
  - left. by apply find_first.
  - rewrite find_none_iff in Hfind. destruct drivers as [|d0 l]; [done|].
    right. by split.
Qed.

(** X5. [addDriver] puts an active driver at the end of the directory, after
    which every zone has a driver. The new driver displaces no driver that
    is active in a zone: it is picked for its own zone when no earlier
    driver is active there, and for another zone only when the directory
    was empty. *)
Theorem addDriver_pick (now : Z) (name phone zone : string) (st : Store) (z : string) :
  let r := addDriver now name phone zone st in
  let d := r.1 in
  DRIVERS r.2 = DRIVERS st ++ [d]
  ∧ ORDERS r.2 = ORDERS st ∧ BATCHES r.2 = BATCHES st ∧ PAYOUTS r.2 = PAYOUTS st
  ∧ Driver.zone d = zone ∧ Driver.is_active d = true
  ∧ pickDriverForZone (DRIVERS r.2) z
    = match List.find (serves z) (DRIVERS st) with
      | Some d0 => Some d0
      | None => if decide (z = zone) then Some d
                else Some (default d (head (DRIVERS st)))
      end.
Proof.
  cbn zeta. unfold addDriver. cbn [fst snd DRIVERS ORDERS BATCHES PAYOUTS].
  split_and!; try done.
  unfold pickDriverForZone. fold (serves z). rewrite find_snoc.
  destruct (List.find (serves z) (DRIVERS st)) as [d0|]; [done|].
  unfold serves at 1. cbn [Driver.zone Driver.is_active].
  rewrite andb_true_r. destruct (decide (z = zone)) as [->|Hne].
  - by rewrite bool_decide_eq_true_2.
  - rewrite bool_decide_eq_false_2 by congruence. by destruct (DRIVERS st).
Qed.

(** ** Status changes *)

Lemma order_with_status_orderId (s : string) (o : Order.t) :
  Order.orderId (order_with_status s o) = Order.orderId o.
Proof. done. Qed.

Lemma findIndex_in_ids (oid : string) (os : list Order.t) :
  is_Some (findIndex (has_orderId oid) os) ↔ oid ∈ ids os.
Proof.
  split.
  - intros [i Hi]. apply findIndex_Some in Hi as (o & Ho & Hp & _).
    apply has_orderId_true in Hp. subst oid.
    unfold ids. apply list_elem_of_fmap_2. by eapply list_elem_of_lookup_2.
  - intros Hin. apply list_elem_of_fmap in Hin as (o & -> & Ho).
    destruct (findIndex (has_orderId (Order.orderId o)) os) eqn:Hfi; [by eexists|].
    rewrite findIndex_None in Hfi. specialize (Hfi o Ho).
    assert (has_orderId (Order.orderId o) o = true) by (by apply has_orderId_true).
    congruence.
Qed.

(** With unique identifiers, the index of an order is the index its
    identifier is found at. *)
Lemma findIndex_unique (os : list Order.t) (i : nat) (o : Order.t) :
  NoDup (ids os) → os !! i = Some o →
  findIndex (has_orderId (Order.orderId o)) os = Some i.
Proof.
  intros Hnd Hi. apply findIndex_Some. exists o. split_and!; [done| |].
  - by apply has_orderId_true.
  - intros j y Hj Hy. destruct (has_orderId (Order.orderId o) y) eqn:Hp; [|done].
    apply has_orderId_true in Hp. exfalso.
    assert (j = i) as ->; [|lia].
    apply (NoDup_lookup _ _ _ (Order.orderId o) Hnd); unfold ids;
      rewrite list_lookup_fmap; [rewrite Hy; cbn; by f_equal|by rewrite Hi].
Qed.

Lemma set_order_status_spec (s : string) (orderId : string) (st : Store) :
  let r := set_order_status s orderId st in
  (r.1 = true ↔ orderId ∈ ids (ORDERS st))
  ∧ (r.1 = false → r.2 = st)
  ∧ ids (ORDERS r.2) = ids (ORDERS st)
  ∧ DRIVERS r.2 = DRIVERS st ∧ BATCHES r.2 = BATCHES st ∧ PAYOUTS r.2 = PAYOUTS st
  ∧ ∀ j o, ORDERS st !! j = Some o →
      ORDERS r.2 !! j
      = Some (if decide (findIndex (has_orderId orderId) (ORDERS st) = Some j)
              then order_with_status s o else o).
Proof.
  cbn zeta. unfold set_order_status.
  pose proof (findIndex_in_ids orderId (ORDERS st)) as Hin.
  destruct (findIndex (has_orderId orderId) (ORDERS st)) as [i|] eqn:Hfi;
    cbn [fst snd ORDERS DRIVERS BATCHES PAYOUTS].
  - split_and!; try done.
    + split; [|done]. intros _. apply Hin. by eexists.
    + by apply ids_alter.
    + intros j o Ho. rewrite list_lookup_alter.
      destruct (decide (i = j)) as [->|Hne].
      * rewrite decide_True by done. by rewrite Ho.
      * rewrite decide_False by congruence. done.
  - split_and!; try done.
    split; [discriminate|]. intros Hid. apply Hin in Hid as [? ?]. discriminate.
Qed.

(** X6. [markOrderPaid] returns true exactly when an order has the
    identifier, and otherwise leaves the store as it is. On success the
    first order with the identifier takes the status [paid], whatever
    status it had, and keeps its other fields, its batch reference among
    them; no other record changes. *)
Theorem markOrderPaid_spec (orderId : string) (st : Store) :
  let r := markOrderPaid orderId st in
  (r.1 = true ↔ orderId ∈ ids (ORDERS st))
  ∧ (r.1 = false → r.2 = st)
  ∧ ids (ORDERS r.2) = ids (ORDERS st)
  ∧ DRIVERS r.2 = DRIVERS st ∧ BATCHES r.2 = BATCHES st ∧ PAYOUTS r.2 = PAYOUTS st
  ∧ ∀ j o, ORDERS st !! j = Some o →
      ORDERS r.2 !! j
      = Some (if decide (findIndex (has_orderId orderId) (ORDERS st) = Some j)
              then Order.mk (Order.orderId o) (Order.zone o)
                            (Order.customer_address o) (Order.baseFee o)
                            (Order.rushFee o) "paid" (Order.assigned_batch_id o)
              else o).
Proof. apply (set_order_status_spec "paid"). Qed.

(** X7. [approveOrder], of the variant with the approval step, behaves as
    [markOrderPaid] does, with the status [approved]: true exactly when an
    order has the identifier, the store untouched otherwise, and on success
    the first such order approved whatever its status was. *)
Theorem approveOrder_spec (orderId : string) (st : Store) :
  let r := approveOrder orderId st in
  (r.1 = true ↔ orderId ∈ ids (ORDERS st))
  ∧ (r.1 = false → r.2 = st)
  ∧ ids (ORDERS r.2) = ids (ORDERS st)
  ∧ DRIVERS r.2 = DRIVERS st ∧ BATCHES r.2 = BATCHES st ∧ PAYOUTS r.2 = PAYOUTS st
  ∧ ∀ j o, ORDERS st !! j = Some o →
      ORDERS r.2 !! j
      = Some (if decide (findIndex (has_orderId orderId) (ORDERS st) = Some j)
              then Order.mk (Order.orderId o) (Order.zone o)
                            (Order.customer_address o) (Order.baseFee o)
                            (Order.rushFee o) "approved" (Order.assigned_batch_id o)
              else o).
Proof. apply (set_order_status_spec "approved"). Qed.

Section status_then_assign.
Context (candidate : Order.t → bool) (s : string).
Context (Hcandidate : ∀ o, truthy (Order.assigned_batch_id o) = false →
                           candidate (order_with_status s o) = true).

(** An order without a batch reference that is given a status the filter
    takes is assigned by the next run. *)
Lemma status_then_assigned (env : Env) (st : Store) (i : nat) (o : Order.t) :
  NoDup (ids (ORDERS st)) → ORDERS st !! i = Some o →
  truthy (Order.assigned_batch_id o) = false → DRIVERS st ≠ [] →
  let st1 := (set_order_status s (Order.orderId o) st).2 in
  let r := autoAssign_with candidate env st1 in
  ∃ b, b ∈ r.1 ∧ Order.orderId o ∈ Batch.orders b
       ∧ ORDERS r.2 !! i = Some (Order.assign (Batch.id b) o).
Proof.
  intros Hnd Hi Href Hd. cbn zeta.
  destruct (set_order_status_spec s (Order.orderId o) st)
    as (_ & _ & Hids & Hdr & _ & _ & Hlook).
  cbn zeta in *. specialize (Hlook i o Hi).
  rewrite decide_True in Hlook by (by apply findIndex_unique).
  set (st1 := (set_order_status s (Order.orderId o) st).2) in *.
  assert (Hnd1 : NoDup (ids (ORDERS st1))) by (by rewrite Hids).
  pose proof (autoAssign_with_assigns candidate env st1 i _ Hnd1 Hlook
                (Hcandidate o Href)) as Hrun.
  unfold assigned_or_unchanged in Hrun. cbn zeta in Hrun.
  destruct (pickDriverForZone (DRIVERS st1) _) as [d|] eqn:Hpick.
  - destruct Hrun as (o' & b & Ho' & _ & _ & _ & Hb & Hin & ->).
    exists b. split_and!; [done|done|]. by rewrite Ho'.
  - apply pickDriverForZone_None in Hpick. congruence.
Qed.
End status_then_assign.

(** X8. Pay, then assign: an order without a batch reference that
    [markOrderPaid] marks is, with a driver in the directory, listed by a
    batch of the next [autoAssign] and ends assigned to it, in both
    variants. Order identifiers are unique. *)
Theorem markOrderPaid_then_autoAssign (env : Env) (st : Store) (i : nat) (o : Order.t) :
  NoDup (ids (ORDERS st)) → ORDERS st !! i = Some o →
  truthy (Order.assigned_batch_id o) = false → DRIVERS st ≠ [] →
  let st1 := (markOrderPaid (Order.orderId o) st).2 in
  (∃ b, b ∈ (PaidOnly.autoAssign env st1).1
        ∧ Order.orderId o ∈ Batch.orders b
        ∧ ORDERS (PaidOnly.autoAssign env st1).2 !! i
          = Some (Order.assign (Batch.id b) o))
  ∧ (∃ b, b ∈ (ApprovedOrPaid.autoAssign env st1).1
          ∧ Order.orderId o ∈ Batch.orders b
          ∧ ORDERS (ApprovedOrPaid.autoAssign env st1).2 !! i
            = Some (Order.assign (Batch.id b) o)).
Proof.
  intros Hnd Hi Href Hd. cbn zeta. split.
  - apply (status_then_assigned PaidOnly.candidate "paid"); try done.
    intros o' Ho'. apply paidOnly_candidate_iff. by split.
  - apply (status_then_assigned ApprovedOrPaid.candidate "paid"); try done.
    intros o' Ho'. apply approvedOrPaid_candidate_iff. split; [by right|done].
Qed.

Lemma markOrderPaid_then_autoAssign_witness :
  let st1 := (markOrderPaid "YI-000004" store_sample).2 in
  (∃ b, b ∈ (PaidOnly.autoAssign env_sample st1).1
        ∧ "YI-000004" ∈ Batch.orders b
        ∧ ORDERS (PaidOnly.autoAssign env_sample st1).2 !! 3%nat
          = Some (Order.assign (Batch.id b) order_pending))
  ∧ (∃ b, b ∈ (ApprovedOrPaid.autoAssign env_sample st1).1
          ∧ "YI-000004" ∈ Batch.orders b
          ∧ ORDERS (ApprovedOrPaid.autoAssign env_sample st1).2 !! 3%nat
            = Some (Order.assign (Batch.id b) order_pending)).
Proof.
  apply (markOrderPaid_then_autoAssign env_sample store_sample 3 order_pending).
  - apply (bool_decide_unpack _). vm_compute. exact I.
  - reflexivity.
  - reflexivity.
  - discriminate.
Defined.

(** X9. Approve, then assign: the variant with the approval step batches
    an approved order at its next run; the variant without it leaves an
    order of status [approved] as it is and lists it in no batch. Order
    identifiers are unique. *)
Theorem approveOrder_then_autoAssign (env : Env) (st : Store) (i : nat) (o : Order.t) :
  NoDup (ids (ORDERS st)) → ORDERS st !! i = Some o →
  truthy (Order.assigned_batch_id o) = false → DRIVERS st ≠ [] →
  let st1 := (approveOrder (Order.orderId o) st).2 in
  (∃ b, b ∈ (ApprovedOrPaid.autoAssign env st1).1
        ∧ Order.orderId o ∈ Batch.orders b
        ∧ ORDERS (ApprovedOrPaid.autoAssign env st1).2 !! i
          = Some (Order.assign (Batch.id b) o))
  ∧ ORDERS (PaidOnly.autoAssign env st1).2 !! i
    = Some (order_with_status "approved" o)
  ∧ ∀ b, b ∈ (PaidOnly.autoAssign env st1).1 → Order.orderId o ∉ Batch.orders b.
Proof.
  intros Hnd Hi Href Hd. cbn zeta. split.
  - apply (status_then_assigned ApprovedOrPaid.candidate "approved"); try done.
    intros o' Ho'. apply approvedOrPaid_candidate_iff. split; [by left|done].
  - destruct (set_order_status_spec "approved" (Order.orderId o) st)
      as (_ & _ & Hids & _ & _ & _ & Hlook).
    cbn zeta in *. specialize (Hlook i o Hi).
    rewrite decide_True in Hlook by (by apply findIndex_unique).
    fold approveOrder in Hids, Hlook.
    set (st1 := (approveOrder (Order.orderId o) st).2) in *.
    destruct (new_batches_exactly PaidOnly.candidate env st1) as (_ & _ & _ & Hkeep).
    apply (Hkeep ltac:(by rewrite Hids) i _ Hlook). reflexivity.
Qed.

Lemma approveOrder_then_autoAssign_witness :
  let st1 := (approveOrder "YI-000004" store_sample).2 in
  (∃ b, b ∈ (ApprovedOrPaid.autoAssign env_sample st1).1
        ∧ "YI-000004" ∈ Batch.orders b
        ∧ ORDERS (ApprovedOrPaid.autoAssign env_sample st1).2 !! 3%nat
          = Some (Order.assign (Batch.id b) order_pending))
  ∧ ORDERS (PaidOnly.autoAssign env_sample st1).2 !! 3%nat
    = Some (order_with_status "approved" order_pending)
  ∧ ∀ b, b ∈ (PaidOnly.autoAssign env_sample st1).1 → "YI-000004" ∉ Batch.orders b.
Proof.
  apply (approveOrder_then_autoAssign env_sample store_sample 3 order_pending).
  - apply (bool_decide_unpack _). vm_compute. exact I.
  - reflexivity.
  - reflexivity.
  - discriminate.
Defined.

(** ** Settling a payout *)

(** X10. [markPayoutPaid] returns true exactly when a payout has the
    identifier, and otherwise leaves the store as it is; on success the
    first payout with the identifier takes the status [paid] and keeps its
    amounts, and no other record changes. *)
Theorem markPayoutPaid_spec (payoutId : string) (st : Store) :
  let r := markPayoutPaid payoutId st in
  (r.1 = true ↔ payoutId ∈ Payout.id <$> PAYOUTS st)
  ∧ (r.1 = false → r.2 = st)
  ∧ ORDERS r.2 = ORDERS st ∧ DRIVERS r.2 = DRIVERS st ∧ BATCHES r.2 = BATCHES st
  ∧ ∀ j p, PAYOUTS st !! j = Some p →
      ∃ p', PAYOUTS r.2 !! j = Some p'
            ∧ payout_content p'
              = (Payout.week_label p, Payout.from p, Payout.to p, Payout.driver p,
                 Payout.earnings p, Payout.orders_count p, Payout.batches_count p,
                 (if decide (findIndex (has_payout_id payoutId) (PAYOUTS st) = Some j)
                  then "paid" else Payout.status p),
                 Payout.ref p)
            ∧ Payout.id p' = Payout.id p.
Proof.
  cbn zeta. unfold markPayoutPaid.
  destruct (findIndex (has_payout_id payoutId) (PAYOUTS st)) as [i|] eqn:Hfi;
    cbn [fst snd ORDERS DRIVERS BATCHES PAYOUTS].
  - split_and!; try done.
    + split; [|done]. intros _.
      apply findIndex_Some in Hfi as (p & Hp & Hid & _).
      unfold has_payout_id in Hid. apply bool_decide_eq_true in Hid. subst payoutId.
      apply list_elem_of_fmap_2. by eapply list_elem_of_lookup_2.
    + intros j p Hp. rewrite list_lookup_alter.
      destruct (decide (i = j)) as [->|Hne].
      * rewrite decide_True by done. rewrite Hp. by eexists.
      * rewrite decide_False by congruence. by exists p.
  - split_and!; try done.
    + split; [discriminate|]. intros Hin.
      apply list_elem_of_fmap in Hin as (p & -> & Hp).
      rewrite findIndex_None in Hfi. specialize (Hfi p Hp).
      unfold has_payout_id in Hfi. by rewrite bool_decide_eq_true_2 in Hfi.
    + intros j p Hp. exists p. by rewrite decide_False.
Qed.

(** ** Dictionaries in insertion order *)

Section assoc.
Context {V : Type}.
Implicit Types m : list (string * V).

Lemma elem_assoc_get m (k : string) (v : V) :
  NoDup m.*1 → (k, v) ∈ m → assoc_get k m = Some v.
Proof.
  induction m as [|[k0 v0] m IH]; simpl; intros Hnd Hin.
  - by apply elem_of_nil in Hin.
  - apply NoDup_cons in Hnd as [Hk0 Hnd].
    apply elem_of_cons in Hin as [[= -> ->]|Hin].
    + by rewrite decide_True.
    + destruct (decide (k0 = k)) as [->|Hne]; [|by apply IH].
      exfalso. apply Hk0. by apply (list_elem_of_fmap_2 fst) in Hin.
Qed.

Lemma assoc_get_elem m (k : string) (v : V) :
  assoc_get k m = Some v → (k, v) ∈ m.
Proof.
  induction m as [|[k0 v0] m IH]; simpl; [discriminate|].
  destruct (decide (k0 = k)) as [->|Hne].
  - intros [= ->]. by left.
  - intros Hget. right. by apply IH.
Qed.

Lemma assoc_get_keys m (k : string) :
  is_Some (assoc_get k m) ↔ k ∈ m.*1.
Proof.
  induction m as [|[k0 v0] m IH]; simpl.
  - rewrite elem_of_nil. split; [by intros [? ?]|done].
  - rewrite elem_of_cons. destruct (decide (k0 = k)) as [->|Hne].
    + split; [by left|by eexists].
    + rewrite IH. split; [by right|]. by intros [?|?].
Qed.
End assoc.

(** ** The dictionary of payouts *)

Lemma grouped_add_get (k : string) (b : Batch.t) (m : list (string * Grouped)) :
  assoc_get k (grouped_add b m)
  = if decide (Driver.id (Batch.driver b) = k)
    then Some (grouped_bump b (default (grouped_init b) (assoc_get k m)))
    else assoc_get k m.
Proof.
  induction m as [|[k0 g0] m IH]; cbn [grouped_add assoc_get].
  - repeat case_decide; subst; done.
  - destruct (decide (k0 = Driver.id (Batch.driver b))) as [->|Hne];
      cbn [assoc_get].
    + repeat case_decide; subst; done.
    + rewrite IH. repeat case_decide; subst; done.
Qed.

Lemma grouped_add_keys (k : string) (b : Batch.t) (m : list (string * Grouped)) :
  k ∈ (grouped_add b m).*1 ↔ k = Driver.id (Batch.driver b) ∨ k ∈ m.*1.
Proof.
  induction m as [|[k0 g0] m IH]; cbn [grouped_add].
  - cbn. rewrite list_elem_of_singleton, elem_of_nil. tauto.
  - destruct (decide (k0 = Driver.id (Batch.driver b))) as [->|Hne]; cbn.
    + rewrite !elem_of_cons. tauto.
    + rewrite !elem_of_cons, IH. tauto.
Qed.

Lemma grouped_add_NoDup (b : Batch.t) (m : list (string * Grouped)) :
  NoDup m.*1 → NoDup (grouped_add b m).*1.
Proof.
  induction m as [|[k0 g0] m IH]; cbn [grouped_add]; intros Hnd.
  - apply NoDup_singleton.
  - apply NoDup_cons in Hnd as [Hk0 Hnd].
    destruct (decide (k0 = Driver.id (Batch.driver b))) as [->|Hne]; cbn.
    + by apply NoDup_cons.
    + apply NoDup_cons. split; [|by apply IH]. rewrite grouped_add_keys. tauto.
Qed.

Lemma grouped_add_total (f : Grouped → Z) (h : Batch.t → Z) (b : Batch.t)
    (m : list (string * Grouped)) :
  f (grouped_init b) = 0 →
  (∀ g, f (grouped_bump b g) = f g + h b) →
  total (f ∘ snd) (grouped_add b m) = total (f ∘ snd) m + h b.
Proof.
  intros Hinit Hbump. unfold total, compose in *.
  induction m as [|[k0 g0] m IH]; cbn [grouped_add].
  - change (mkGrouped (Batch.driver b) 0 0 0) with (grouped_init b).
    cbn [foldr snd]. rewrite Hbump, Hinit. lia.
  - destruct (decide (k0 = Driver.id (Batch.driver b))); cbn [foldr snd].
    + rewrite Hbump. lia.
    + rewrite IH. lia.
Qed.

Lemma grouped_fold_get (k : string) (bs : list Batch.t) (m : list (string * Grouped)) :
  assoc_get k (foldl (λ grouped b, grouped_add b grouped) m bs)
  = match batches_of_driver k bs with
    | [] => assoc_get k m
    | b :: rest =>
        Some (bump_all (default (grouped_init b) (assoc_get k m)) (b :: rest))
    end.
Proof.
  revert m. induction bs as [|b0 bs IH]; intros m; [done|].
  change (foldl (λ grouped b, grouped_add b grouped) m (b0 :: bs))
    with (foldl (λ grouped b, grouped_add b grouped) (grouped_add b0 m) bs).
  rewrite IH, grouped_add_get. unfold batches_of_driver. rewrite filter_cons.
  destruct (decide (Driver.id (Batch.driver b0) = k)) as [Hk|Hk].
  - by destruct (filter _ bs).
  - done.
Qed.

Lemma grouped_fold_wf (bs : list Batch.t) (m : list (string * Grouped)) :
  NoDup m.*1 →
  NoDup (foldl (λ grouped b, grouped_add b grouped) m bs).*1.
Proof.
  revert m. induction bs as [|b0 bs IH]; intros m Hnd; [done|].
  apply IH. by apply grouped_add_NoDup.
Qed.

Lemma grouped_fold_total (f : Grouped → Z) (h : Batch.t → Z)
    (bs : list Batch.t) (m : list (string * Grouped)) :
  (∀ b, f (grouped_init b) = 0) →
  (∀ b g, f (grouped_bump b g) = f g + h b) →
  total (f ∘ snd) (foldl (λ grouped b, grouped_add b grouped) m bs)
  = total (f ∘ snd) m + total h bs.
Proof.
  intros Hinit Hbump. revert m. induction bs as [|b0 bs IH]; intros m.
  - cbn [foldl]. unfold total at 3. cbn [foldr]. lia.
  - change (foldl (λ grouped b, grouped_add b grouped) m (b0 :: bs))
      with (foldl (λ grouped b, grouped_add b grouped) (grouped_add b0 m) bs).
    rewrite IH, (grouped_add_total f h) by done.
    unfold total at 4. cbn [foldr]. fold (total h bs). lia.
Qed.
Lemma bump_all_fields (g : Grouped) (bs : list Batch.t) :
  g_driver (bump_all g bs) = g_driver g
  ∧ g_earnings (bump_all g bs) = g_earnings g + total Batch.driver_earnings bs
  ∧ g_batches (bump_all g bs) = g_batches g + Z.of_nat (length bs)
  ∧ g_orders (bump_all g bs)
    = g_orders g + total (λ b, Z.of_nat (length (Batch.orders b))) bs.
Proof.
  revert g. induction bs as [|b bs IH]; intros g.
  - cbn. split_and!; first [done|lia].
  - change (bump_all g (b :: bs)) with (bump_all (grouped_bump b g) bs).
    destruct (IH (grouped_bump b g)) as (-> & -> & -> & ->).
    cbn [grouped_bump g_driver g_earnings g_batches g_orders length].
    unfold total. cbn [foldr]. split_and!; first [done|lia].
Qed.

(** ** What a weekly run pays *)

Lemma total_imap {A B} (f : B → Z) (f' : A → Z) (h : nat → A → B) (l : list A) :
  (∀ i x, f (h i x) = f' x) → total f (imap h l) = total f' l.
Proof.
  intros Hf. revert h Hf. induction l as [|x l IH]; intros h Hf; [done|].
  rewrite imap_cons. unfold total in *. cbn [foldr].
  rewrite Hf. f_equal. apply IH. intros i y. apply Hf.
Qed.

Lemma fmap_imap_const {A B C} (f : B → C) (f' : A → C) (h : nat → A → B) (l : list A) :
  (∀ i x, f (h i x) = f' x) → f <$> imap h l = f' <$> l.
Proof.
  intros Hf. apply list_eq. intros i.
  rewrite !list_lookup_fmap, list_lookup_imap.
  destruct (l !! i); cbn; [|done]. by rewrite Hf.
Qed.

Section weekly.
Context (env : Env) (forDate : Z) (st : Store).

(** An entry of [grouped] sums the batches of its driver in the window. *)
Lemma grouped_entry (k : string) (g : Grouped) :
  (k, g) ∈ foldl (λ grouped b, grouped_add b grouped) [] (in_week forDate st) ↔
  ∃ b rest, batches_of_driver k (in_week forDate st) = b :: rest
            ∧ g = bump_all (grouped_init b) (b :: rest).
Proof.
  pose proof (grouped_fold_get k (in_week forDate st) []) as Hget.
  pose proof (grouped_fold_wf (in_week forDate st) [] ltac:(constructor)) as Hnd.
  cbn [assoc_get default] in Hget. split.
  - intros Hin. apply (elem_assoc_get _ _ _ Hnd) in Hin. rewrite Hin in Hget.
    destruct (batches_of_driver k (in_week forDate st)) as [|b rest]; [done|].
    injection Hget as ->. by exists b, rest.
  - intros (b & rest & Hmine & ->). apply assoc_get_elem.
    by rewrite Hget, Hmine.
Qed.

Lemma batches_of_driver_id (k : string) (bs : list Batch.t) (b : Batch.t) :
  b ∈ batches_of_driver k bs → Driver.id (Batch.driver b) = k.
Proof. unfold batches_of_driver. rewrite list_elem_of_filter. tauto. Qed.

Lemma payout_of_run (p : Payout.t) :
  p ∈ (generateWeeklyPayouts env forDate st).1 ↔
  ∃ i k g,
    foldl (λ grouped b, grouped_add b grouped) [] (in_week forDate st) !! i
      = Some (k, g)
    ∧ p = make_payout env (startOfMonday forDate)
            (endOfSunday (startOfMonday forDate))
            (weekLabel (startOfMonday forDate)) i (k, g).
Proof.
  unfold generateWeeklyPayouts. cbn [fst]. fold (in_week forDate st).
  rewrite elem_of_lookup_imap. split.
  - intros (i & [k g] & -> & Hi). by exists i, k, g.
  - intros (i & k & g & Hi & ->). by exists i, (k, g).
Qed.

(** X11. Every payout of a weekly run is the sum over the batches of its
    driver that were completed in the window: its earnings are their driver
    earnings added up, its batch count their number, its order count the
    number of orders they list; it is [pending], spans the window, and
    carries the driver record of the first of these batches. *)
Theorem weekly_payout_totals (p : Payout.t) :
  p ∈ (generateWeeklyPayouts env forDate st).1 →
  let mine := batches_of_driver (Driver.id (Payout.driver p)) (in_week forDate st) in
  (∃ b rest, mine = b :: rest ∧ Payout.driver p = Batch.driver b)
  ∧ Payout.earnings p = total Batch.driver_earnings mine
  ∧ Payout.batches_count p = Z.of_nat (length mine)
  ∧ Payout.orders_count p = total (λ b, Z.of_nat (length (Batch.orders b))) mine
  ∧ Payout.status p = "pending"
  ∧ Payout.from p = startOfMonday forDate
  ∧ Payout.to p = endOfSunday (startOfMonday forDate).
Proof.
  intros Hp. apply payout_of_run in Hp as (i & k & g & Hi & ->).
  apply list_elem_of_lookup_2, grouped_entry in Hi as (b & rest & Hmine & ->).
  destruct (bump_all_fields (grouped_init b) (b :: rest)) as (Hd & He & Hb & Ho).
  cbn [make_payout Payout.driver Payout.earnings Payout.batches_count
       Payout.orders_count Payout.status Payout.from Payout.to].
  assert (Hk : Driver.id (Batch.driver b) = k).
  { apply (batches_of_driver_id k (in_week forDate st)). rewrite Hmine. by left. }
  rewrite Hd. cbn [grouped_init g_driver]. rewrite Hk. cbn zeta. rewrite Hmine.
  split_and!; [by exists b, rest| | | |done|done|done].
  - rewrite Math_round_inject_Z, He. cbn. lia.
  - rewrite Hb. cbn. lia.
  - rewrite Ho. cbn. lia.
Qed.

(** The driver identifiers of the payouts of a run. *)
Lemma payout_driver_ids :
  let paid := (λ p, Driver.id (Payout.driver p))
                <$> (generateWeeklyPayouts env forDate st).1 in
  NoDup paid
  ∧ ∀ k, k ∈ paid ↔ ∃ b, b ∈ in_week forDate st ∧ Driver.id (Batch.driver b) = k.
Proof.
  cbn zeta. unfold generateWeeklyPayouts. cbn [fst]. fold (in_week forDate st).
  set (grouped := foldl (λ grouped b, grouped_add b grouped) [] (in_week forDate st)).
  assert (Hkeys : (λ p, Driver.id (Payout.driver p))
                    <$> imap (make_payout env (startOfMonday forDate)
                                (endOfSunday (startOfMonday forDate))
                                (weekLabel (startOfMonday forDate))) grouped
                  = grouped.*1).
  { apply list_eq. intros i.
    rewrite !list_lookup_fmap, list_lookup_imap.
    destruct (grouped !! i) as [[k g]|] eqn:Hi; cbn; [|done]. f_equal.
    apply list_elem_of_lookup_2, grouped_entry in Hi as (b & rest & Hmine & ->).
    destruct (bump_all_fields (grouped_init b) (b :: rest)) as (-> & _).
    apply (batches_of_driver_id k (in_week forDate st)). rewrite Hmine. by left. }
  rewrite Hkeys. split.
  - by apply grouped_fold_wf; constructor.
  - intros k. rewrite <- assoc_get_keys.
    unfold grouped. rewrite grouped_fold_get. cbn [assoc_get].
    destruct (batches_of_driver k (in_week forDate st)) as [|b rest] eqn:Hmine.
    + split; [by intros [? ?]|]. intros (b & Hb & Hk).
      assert (b ∈ batches_of_driver k (in_week forDate st)) as Hin
        by (by apply list_elem_of_filter).
      rewrite Hmine in Hin. by apply elem_of_nil in Hin.
    + split; [|by eexists]. intros _.
      assert (b ∈ batches_of_driver k (in_week forDate st)) as Hin
        by (rewrite Hmine; by left).
      apply list_elem_of_filter in Hin as [Hk Hb]. by exists b.
Qed.

(** X12. A weekly run returns one payout per driver: the driver
    identifiers of its payouts are distinct, and they are the identifiers
    that a completed batch of the window carries. *)
Theorem weekly_payout_per_driver :
  let paid := (λ p, Driver.id (Payout.driver p))
                <$> (generateWeeklyPayouts env forDate st).1 in
  NoDup paid
  ∧ ∀ k, k ∈ paid ↔ ∃ b, b ∈ in_week forDate st ∧ Driver.id (Batch.driver b) = k.
Proof. apply payout_driver_ids. Qed.

(** X13. A weekly run pays out what the window earned: the earnings of its
    payouts add up to the driver earnings of the completed batches of the
    window, and its batch and order counts to their number and to the number
    of orders they list. *)
Theorem weekly_payout_conserves :
  let out := (generateWeeklyPayouts env forDate st).1 in
  total Payout.earnings out = total Batch.driver_earnings (in_week forDate st)
  ∧ total Payout.batches_count out = Z.of_nat (length (in_week forDate st))
  ∧ total Payout.orders_count out
    = total (λ b, Z.of_nat (length (Batch.orders b))) (in_week forDate st).
Proof.
  cbn zeta. unfold generateWeeklyPayouts. cbn [fst]. fold (in_week forDate st).
  split_and!.
  - rewrite (total_imap _ (g_earnings ∘ snd)).
    + by rewrite (grouped_fold_total g_earnings Batch.driver_earnings).
    + intros i [k g]. cbn. apply Math_round_inject_Z.
  - rewrite (total_imap _ (g_batches ∘ snd)) by (by intros i [k g]).
    rewrite (grouped_fold_total g_batches (λ _, 1)) by done.
    cbn. induction (in_week forDate st) as [|b bs IH]; [done|].
    unfold total in *. cbn [foldr length]. lia.
  - rewrite (total_imap _ (g_orders ∘ snd)) by (by intros i [k g]).
    by rewrite (grouped_fold_total g_orders
                  (λ b, Z.of_nat (length (Batch.orders b)))).
Qed.
End weekly.

(** X14. [generateWeeklyPayouts] changes no order, driver or batch and
    appends what it returns to the payouts. Run again for a date of the same
    week, it returns payouts of the same content (identifier and creation
    time apart) and appends them too: a week run twice is paid twice in the
    store. *)
Theorem generateWeeklyPayouts_again (env1 env2 : Env) (forDate forDate' : Z) (st : Store) :
  startOfMonday forDate' = startOfMonday forDate →
  let r1 := generateWeeklyPayouts env1 forDate st in
  let r2 := generateWeeklyPayouts env2 forDate' r1.2 in
  ORDERS r1.2 = ORDERS st ∧ DRIVERS r1.2 = DRIVERS st ∧ BATCHES r1.2 = BATCHES st
  ∧ PAYOUTS r1.2 = PAYOUTS st ++ r1.1
  ∧ payout_content <$> r2.1 = payout_content <$> r1.1
  ∧ PAYOUTS r2.2 = PAYOUTS st ++ r1.1 ++ r2.1.
Proof.
  intros Hweek. cbn zeta. unfold generateWeeklyPayouts.
  cbn [fst snd ORDERS DRIVERS BATCHES PAYOUTS]. rewrite Hweek.
  split_and!; try done.
  - set (grouped := foldl _ [] _).
    rewrite (fmap_imap_const payout_content
               (λ kg, payout_content
                        (make_payout env1 (startOfMonday forDate)
                           (endOfSunday (startOfMonday forDate))
                           (weekLabel (startOfMonday forDate)) 0 kg))).
    + symmetry. apply fmap_imap_const. by intros i [k g].
    + by intros i [k g].
  - by rewrite <- app_assoc.
Qed.

Lemma generateWeeklyPayouts_again_witness :
  let r1 := generateWeeklyPayouts env_sample date_2021_01_06 store_done in
  let r2 := generateWeeklyPayouts env_sample (18631 * msPerDay) r1.2 in
  ORDERS r1.2 = ORDERS store_done ∧ DRIVERS r1.2 = DRIVERS store_done
  ∧ BATCHES r1.2 = BATCHES store_done
  ∧ PAYOUTS r1.2 = PAYOUTS store_done ++ r1.1
  ∧ payout_content <$> r2.1 = payout_content <$> r1.1
  ∧ PAYOUTS r2.2 = PAYOUTS store_done ++ r1.1 ++ r2.1.
Proof.
  apply (generateWeeklyPayouts_again env_sample env_sample date_2021_01_06
           (18631 * msPerDay) store_done).
  vm_compute. reflexivity.
Defined.

Lemma weekly_payout_totals_witness :
  let p := make_payout env_sample (startOfMonday date_2021_01_06)
             (endOfSunday (startOfMonday date_2021_01_06))
             (weekLabel (startOfMonday date_2021_01_06))
             0 ("DRV-000001", mkGrouped driver_sample 35 1 2) in
  let mine := batches_of_driver (Driver.id (Payout.driver p))
                (in_week date_2021_01_06 store_done) in
  (∃ b rest, mine = b :: rest ∧ Payout.driver p = Batch.driver b)
  ∧ Payout.earnings p = total Batch.driver_earnings mine
  ∧ Payout.batches_count p = Z.of_nat (length mine)
  ∧ Payout.orders_count p = total (λ b, Z.of_nat (length (Batch.orders b))) mine
  ∧ Payout.status p = "pending"
  ∧ Payout.from p = startOfMonday date_2021_01_06
  ∧ Payout.to p = endOfSunday (startOfMonday date_2021_01_06).
Proof.
  apply (weekly_payout_totals env_sample date_2021_01_06 store_done).
  apply list_elem_of_lookup. exists 0%nat. vm_compute. reflexivity.
Defined.

(** ** The window of a week *)

Lemma endOfSunday_monday (m : Z) :
  endOfSunday (m * msPerDay) = m * msPerDay + 7 * msPerDay - 1.
Proof.
  unfold endOfSunday, setHours, addDate.
  replace (m * msPerDay + 6 * msPerDay) with ((m + 6) * msPerDay) by lia.
  rewrite Day_mul. unfold msPerDay. lia.
Qed.

Lemma week_window_bounds (t : Z) :
  startOfMonday t <= t ∧ t <= endOfSunday (startOfMonday t).
Proof.
  pose proof (startOfMonday_range t) as Hrange.
  rewrite startOfMonday_day in *. rewrite endOfSunday_monday. lia.
Qed.

(** X15. The window of a reference date starts on a Monday at midnight,
    ends one millisecond before the next Monday and holds the date; every
    date of the window has the same window. *)
Theorem week_window (t : Z) :
  let monday := startOfMonday t in
  let sunday := endOfSunday monday in
  getDay monday = 1
  ∧ getHours monday = 0 ∧ monday mod msPerDay = 0
  ∧ sunday = monday + 7 * msPerDay - 1
  ∧ monday <= t <= sunday
  ∧ ∀ t', monday <= t' <= sunday → startOfMonday t' = monday.
Proof.
  cbn zeta. pose proof (startOfMonday_getDay t) as Hmon.
  pose proof (startOfMonday_range t) as Hrange.
  rewrite startOfMonday_day in *.
  set (m := Day t - (getDay t + 6) mod 7) in *.
  rewrite endOfSunday_monday.
  assert (Hm : (m + 4) mod 7 = 1).
  { unfold getDay in Hmon. by rewrite Day_mul in Hmon. }
  split_and!.
  - done.
  - unfold getHours. rewrite Z.mod_mul by done. done.
  - by apply Z.mod_mul.
  - done.
  - lia.
  - lia.
  - intros t' Ht'. rewrite startOfMonday_day. f_equal.
    unfold getDay, Day, msPerDay in *. clear Hmon Hrange.
    Z.div_mod_to_equations. lia.
Qed.

(** ** Completing again, and paying a completed batch *)

Lemma findIndex_alter {A} (p : A → bool) (f : A → A) (i : nat) (l : list A) :
  (∀ x, p (f x) = p x) → findIndex p (alter f i l) = findIndex p l.
Proof.
  intros Hf. revert i. induction l as [|a l IH]; intros [|i]; cbn; try done.
  - by rewrite Hf.
  - by rewrite IH.
Qed.

Lemma deliver_deliver (o : Order.t) : Order.deliver (Order.deliver o) = Order.deliver o.
Proof. done. Qed.

Lemma mark_delivered_lookup (os : list Order.t) (oid : string) (j : nat) (o : Order.t) :
  os !! j = Some o →
  mark_delivered os oid !! j
  = Some (if decide (findIndex (has_orderId oid) os = Some j)
          then Order.deliver o else o).
Proof.
  intros Ho. unfold mark_delivered.
  destruct (findIndex (has_orderId oid) os) as [i|] eqn:Hfi.
  - rewrite list_lookup_alter. destruct (decide (i = j)) as [->|Hne].
    + rewrite decide_True by done. by rewrite Ho.
    + rewrite decide_False by congruence. done.
  - by rewrite decide_False.
Qed.

(** The orders after the loop of [completeBatch]: delivered where an
    identifier of the list is found, as they were elsewhere. *)
Lemma foldl_mark_delivered_lookup (oids : list string) (os : list Order.t)
    (j : nat) (o : Order.t) :
  os !! j = Some o →
  foldl mark_delivered os oids !! j
  = Some (if decide (found_at os oids j) then Order.deliver o else o).
Proof.
  revert os o. induction oids as [|oid0 oids IH]; intros os o Ho.
  - cbn. rewrite decide_False; [done|]. unfold found_at.
    intros Hex. by apply Exists_nil in Hex.
  - change (foldl mark_delivered os (oid0 :: oids))
      with (foldl mark_delivered (mark_delivered os oid0) oids).
    rewrite (IH _ _ (mark_delivered_lookup os oid0 j o Ho)).
    assert (Hsame : found_at (mark_delivered os oid0) oids j ↔ found_at os oids j).
    { unfold found_at. rewrite !Exists_exists. split; intros (oid & Hin & Hfi);
        exists oid; split; try done;
        by rewrite findIndex_orderId, ?ids_mark_delivered, <- ?findIndex_orderId in *. }
    assert (Hcons : found_at os (oid0 :: oids) j ↔
                    findIndex (has_orderId oid0) os = Some j ∨ found_at os oids j)
      by apply Exists_cons.
    f_equal. repeat case_decide; try done; tauto.
Qed.

Lemma foldl_mark_delivered_twice (oids : list string) (os : list Order.t) :
  foldl mark_delivered (foldl mark_delivered os oids) oids
  = foldl mark_delivered os oids.
Proof.
  destruct (foldl_mark_delivered oids os) as (Hids & Hrel & _).
  apply list_eq. intros j.
  destruct (os !! j) as [o|] eqn:Ho.
  - pose proof (foldl_mark_delivered_lookup oids os j o Ho) as H1.
    rewrite (foldl_mark_delivered_lookup oids _ j _ H1), H1. f_equal.
    assert (Hsame : found_at (foldl mark_delivered os oids) oids j ↔ found_at os oids j).
    { unfold found_at. rewrite !Exists_exists. split; intros (oid & Hin & Hfi);
        exists oid; split; try done;
        by rewrite findIndex_orderId, ?Hids, <- ?findIndex_orderId in *. }
    repeat case_decide; try done; tauto.
  - apply Forall2_length in Hrel.
    destruct (foldl_mark_delivered oids (foldl mark_delivered os oids))
      as (_ & Hrel' & _).
    apply Forall2_length in Hrel'.
    apply lookup_ge_None in Ho.
    rewrite !(proj2 (lookup_ge_None _ _)); [done|lia|lia].
Qed.

Lemma completeBatch_found (now : Z) (batchId : string) (st : Store) (i : nat) :
  findIndex (has_batch_id batchId) (BATCHES st) = Some i →
  ∃ b, BATCHES st !! i = Some b ∧ Batch.id b = batchId
       ∧ completeBatch now batchId st
         = (true, mkStore (foldl mark_delivered (ORDERS st) (Batch.orders b))
                          (DRIVERS st)
                          (alter (Batch.complete now) i (BATCHES st))
                          (PAYOUTS st)).
Proof.
  intros Hfi. unfold completeBatch. rewrite Hfi.
  apply findIndex_Some in Hfi as (b & Hb & Hid & _).
  apply has_batch_id_true in Hid. exists b. by rewrite Hb.
Qed.

Lemma completeBatch_true (now : Z) (batchId : string) (st : Store) :
  (completeBatch now batchId st).1 = true →
  is_Some (findIndex (has_batch_id batchId) (BATCHES st)).
Proof.
  unfold completeBatch. destruct (findIndex _ _); [by eexists|discriminate].
Qed.

(** X16. Completing a batch a second time succeeds again and leaves the
    store that one completion at the later instant leaves: the orders stay
    delivered, and the completion time of the batch is replaced. *)
Theorem completeBatch_again (now1 now2 : Z) (batchId : string) (st : Store) :
  (completeBatch now1 batchId st).1 = true →
  completeBatch now2 batchId (completeBatch now1 batchId st).2
  = completeBatch now2 batchId st.
Proof.
  intros Hok. apply completeBatch_true in Hok as [i Hfi].
  destruct (completeBatch_found now1 batchId st i Hfi) as (b & Hb & Hid & ->).
  destruct (completeBatch_found now2 batchId st i Hfi) as (b' & Hb' & _ & ->).
  assert (b' = b) as -> by congruence.
  cbn [snd]. unfold completeBatch. cbn [ORDERS BATCHES DRIVERS PAYOUTS].
  rewrite findIndex_alter by done. rewrite Hfi.
  rewrite list_lookup_alter_eq, Hb. cbn [fmap option_fmap option_map from_option
                                      Batch.complete Batch.orders].
  rewrite foldl_mark_delivered_twice, list_alter_alter_eq.
  reflexivity.
Qed.

Lemma completeBatch_again_witness :
  completeBatch 1609800000000 "BAT-123456-42"
    (completeBatch 1609754400000 "BAT-123456-42"
       (PaidOnly.autoAssign env_sample store_sample).2).2
  = completeBatch 1609800000000 "BAT-123456-42"
      (PaidOnly.autoAssign env_sample store_sample).2.
Proof.
  apply (completeBatch_again 1609754400000 1609800000000 "BAT-123456-42").
  vm_compute. reflexivity.
Defined.

(** X17. Complete, then pay: after [completeBatch] succeeds at an instant,
    the weekly run for that instant has the batch in its window and returns
    a payout for its driver. *)
Theorem completeBatch_then_payout (env : Env) (now : Z) (batchId : string) (st : Store) :
  (completeBatch now batchId st).1 = true →
  let st1 := (completeBatch now batchId st).2 in
  ∃ b p, b ∈ in_week now st1
         ∧ Batch.id b = batchId
         ∧ Batch.status b = "completed"
         ∧ Batch.completed_at b = Some now
         ∧ p ∈ (generateWeeklyPayouts env now st1).1
         ∧ Driver.id (Payout.driver p) = Driver.id (Batch.driver b).
Proof.
  intros Hok. cbn zeta. apply completeBatch_true in Hok as [i Hfi].
  destruct (completeBatch_found now batchId st i Hfi) as (b & Hb & Hid & ->).
  cbn [snd]. set (st1 := mkStore _ _ _ _).
  assert (Hin : Batch.complete now b ∈ in_week now st1).
  { unfold in_week. apply list_elem_of_In, filter_In. split.
    - apply list_elem_of_In. apply (list_elem_of_lookup_2 _ i).
      cbn [BATCHES st1]. by rewrite list_lookup_alter_eq, Hb.
    - unfold in_window. cbn [Batch.complete Batch.status Batch.completed_at].
      destruct (week_window_bounds now) as [Hlo Hhi].
      rewrite bool_decide_eq_true_2 by done. cbn [andb].
      apply andb_true_iff. split; [by apply Z.leb_le|by apply Z.leb_le]. }
  destruct (payout_driver_ids env now st1) as [_ Hpaid].
  assert (Hk : Driver.id (Batch.driver b)
               ∈ (λ p, Driver.id (Payout.driver p))
                   <$> (generateWeeklyPayouts env now st1).1).
  { apply Hpaid. by exists (Batch.complete now b). }
  apply list_elem_of_fmap in Hk as (p & Hp & Hin').
  exists (Batch.complete now b), p. split_and!; try done.
Qed.

Lemma completeBatch_then_payout_witness :
  let st1 := (completeBatch 1609754400000 "BAT-123456-42"
                (PaidOnly.autoAssign env_sample store_sample).2).2 in
  ∃ b p, b ∈ in_week 1609754400000 st1
         ∧ Batch.id b = "BAT-123456-42"
         ∧ Batch.status b = "completed"
         ∧ Batch.completed_at b = Some 1609754400000
         ∧ p ∈ (generateWeeklyPayouts env_sample 1609754400000 st1).1
         ∧ Driver.id (Payout.driver p) = Driver.id (Batch.driver b).
Proof.
  apply (completeBatch_then_payout env_sample 1609754400000 "BAT-123456-42").
  vm_compute. reflexivity.
Defined.

(** ** What a run of [autoAssign] leaves alone *)

Lemma same_or_assigned_refl (bs : list Batch.t) (os : list Order.t) :
  Forall2 (same_or_assigned bs) os os.
Proof. apply Forall_Forall2_diag, Forall_forall. intros o _. by left. Qed.

Lemma same_or_assigned_mono (bs bs' : list Batch.t) (o o' : Order.t) :
  (∀ b, b ∈ bs → b ∈ bs') → same_or_assigned bs o o' → same_or_assigned bs' o o'.
Proof.
  intros Hsub [->|(b & Hb & ->)]; [by left|]. right. exists b. auto.
Qed.

Lemma same_or_assigned_trans (bs : list Batch.t) (o o1 o2 : Order.t) :
  same_or_assigned bs o o1 → same_or_assigned bs o1 o2 → same_or_assigned bs o o2.
Proof.
  intros [->|(b & Hb & ->)] [->|(b' & Hb' & ->)].
  - by left.
  - right. by exists b'.
  - right. by exists b.
  - right. by exists b'.
Qed.

Lemma ids_mark_assigned (bid : string) (os : list Order.t) (o : Order.t) :
  ids (mark_assigned bid os o) = ids os.
Proof.
  unfold mark_assigned. destruct (findIndex _ os); [|done]. by apply ids_alter.
Qed.

Lemma mark_group_frame (b : Batch.t) (group os : list Order.t) :
  ids (foldl (mark_assigned (Batch.id b)) os group) = ids os
  ∧ Forall2 (same_or_assigned [b]) os (foldl (mark_assigned (Batch.id b)) os group).
Proof.
  revert os. induction group as [|o group IH]; intros os.
  - split; [done|apply same_or_assigned_refl].
  - change (foldl (mark_assigned (Batch.id b)) os (o :: group))
      with (foldl (mark_assigned (Batch.id b)) (mark_assigned (Batch.id b) os o) group).
    destruct (IH (mark_assigned (Batch.id b) os o)) as [Hids Hrel]. split.
    + by rewrite Hids, ids_mark_assigned.
    + eapply Forall2_trans; [apply same_or_assigned_trans| |exact Hrel].
      unfold mark_assigned. destruct (findIndex _ os).
      * eapply Forall2_impl; [apply alter_same_or|].
        intros y y' [->| ->]; [by left|]. right. exists b. split; [by left|done].
      * apply same_or_assigned_refl.
Qed.

Lemma assign_loop_frame (env : Env) (drivers : list Driver.t) (byKey : ByKey)
    (acc : Assigning) :
  let r := foldl (assign_group env drivers) acc byKey in
  let newb := batches_for env drivers (length (a_created acc)) byKey in
  ids (a_orders r) = ids (a_orders acc)
  ∧ Forall2 (same_or_assigned newb) (a_orders acc) (a_orders r).
Proof.
  revert acc. induction byKey as [|[k group] rest IH]; intros acc; cbn zeta.
  - split; [done|apply same_or_assigned_refl].
  - change (foldl (assign_group env drivers) acc ((k, group) :: rest))
      with (foldl (assign_group env drivers)
              (assign_group env drivers acc (k, group)) rest).
    destruct group as [|g0 group'].
    { rewrite assign_group_skip by done. apply IH. }
    destruct (pickDriverForZone drivers (Order.zone g0)) as [driver|] eqn:Hpick.
    2:{ rewrite assign_group_skip by done. cbn [batches_for]. rewrite Hpick. apply IH. }
    rewrite (assign_group_batch _ _ _ _ _ _ _ Hpick). cbn zeta.
    cbn [batches_for]. rewrite Hpick.
    set (batch := make_batch env (length (a_created acc)) driver k g0 (g0 :: group')).
    specialize (IH (mkAssigning
      (foldl (mark_assigned (Batch.id batch)) (a_orders acc) (g0 :: group'))
      (a_batches acc ++ [batch]) (a_created acc ++ [batch]))).
    cbn zeta in IH. cbn [a_created a_batches a_orders] in IH.
    rewrite length_app, Nat.add_1_r in IH. destruct IH as (Hids & Hrel).
    destruct (mark_group_frame batch (g0 :: group') (a_orders acc)) as [Hids1 Hrel1].
    split; [by rewrite Hids, Hids1|].
    eapply Forall2_trans; [apply same_or_assigned_trans| |].
    + eapply Forall2_impl; [exact Hrel1|]. intros y y'.
      apply same_or_assigned_mono. intros b0 Hb0.
      apply list_elem_of_singleton in Hb0 as ->. by left.
    + eapply Forall2_impl; [exact Hrel|]. intros y y'.
      apply same_or_assigned_mono. intros b0 Hb0. by right.
Qed.

Lemma autoAssign_with_frame (candidate : Order.t → bool) (env : Env) (st : Store) :
  run_frame (autoAssign_with candidate) env st.
Proof.
  unfold run_frame. cbn zeta.
  destruct (autoAssign_with_spec candidate env st) as (H1 & H2 & H3 & H4 & _).
  rewrite H1, H2, H3, H4.
  pose proof (assign_loop_frame env (DRIVERS st)
    (group_by_key (List.filter candidate (ORDERS st)))
    (mkAssigning (ORDERS st) (BATCHES st) [])) as H.
  cbn zeta in H. cbn [a_created a_orders length] in H. destruct H as [Hids Hrel].
  unfold autoAssign_with. cbn [snd ORDERS]. by split_and!.
Qed.

(** X18. [autoAssign] adds, removes and moves no order, changes an order
    only by assigning it to a batch it creates, leaves drivers and payouts
    untouched and puts the created batches after the batches already
    there; this needs no assumption on the store. *)
Theorem autoAssign_frame (env : Env) (st : Store) :
  run_frame PaidOnly.autoAssign env st
  ∧ run_frame ApprovedOrPaid.autoAssign env st.
Proof. split; apply autoAssign_with_frame. Qed.

(** ** The batches a run creates *)

Lemma List_filter_sublist {A} (p : A → bool) (l : list A) :
  List.filter p l `sublist_of` l.
Proof.
  induction l as [|a l IH]; cbn; [done|].
  destruct (p a); [by apply sublist_skip|by apply sublist_cons].
Qed.

Lemma pickDriverForZone_elem (drivers : list Driver.t) (zone : string) (d : Driver.t) :
  pickDriverForZone drivers zone = Some d → d ∈ drivers.
Proof.
  unfold pickDriverForZone.
  destruct (List.find _ drivers) as [d0|] eqn:Hfind.
  - intros [= ->]. apply find_some in Hfind as [Hin _]. by apply list_elem_of_In.
  - destruct drivers as [|d0 l]; [discriminate|]. intros [= ->]. by left.
Qed.

Lemma new_batches_wellformed (candidate : Order.t → bool) (env : Env) (st : Store)
    (b : Batch.t) :
  b ∈ new_batches candidate env st → batch_wellformed candidate st b.
Proof.
  intros Hb. apply batches_for_elem in Hb as (k & g0 & g & d & j & Hg & Hpick & ->).
  destruct (group_members candidate st k (g0 :: g) g0 Hg ltac:(left))
    as (Ho & Hc & Hk).
  unfold batch_wellformed.
  cbn [make_batch Batch.status Batch.completed_at Batch.driver Batch.zone
       Batch.orders Batch.delivery_fee_each Batch.cluster_key].
  split_and!; try done.
  - by eapply pickDriverForZone_elem.
  - by exists g0.
  - apply group_by_key_elem in Hg as [_ ->].
    apply fmap_sublist. etrans; [apply sublist_filter|apply List_filter_sublist].
Qed.

(** X19. Every batch [autoAssign] creates is open ([assigned], no
    completion time), carries the driver of the directory that
    [pickDriverForZone] gives for its zone, and takes zone, fee and cluster
    key from its first order, a candidate of the store; its list names
    orders of the store in the order of the store. *)
Theorem created_batches_wellformed (env : Env) (st : Store) (b : Batch.t) :
  (b ∈ (PaidOnly.autoAssign env st).1 → batch_wellformed PaidOnly.candidate st b)
  ∧ (b ∈ (ApprovedOrPaid.autoAssign env st).1 →
     batch_wellformed ApprovedOrPaid.candidate st b).
Proof.
  split; intros Hb; apply (new_batches_wellformed _ env);
    by rewrite <- (proj1 (autoAssign_with_spec _ env st)).
Qed.

Lemma batches_for_keys (env : Env) (drivers : list Driver.t) (i : nat) (byKey : ByKey) :
  Batch.cluster_key <$> batches_for env drivers i byKey `sublist_of` byKey.*1.
Proof.
  revert i. induction byKey as [|[k [|g0 g]] rest IH]; intros i;
    cbn [batches_for fmap list_fmap fst]; [done|by apply sublist_cons|].
  destruct (pickDriverForZone drivers (Order.zone g0)).
  - rewrite fmap_cons. apply sublist_skip, IH.
  - apply sublist_cons, IH.
Qed.

Lemma new_batches_disjoint (candidate : Order.t → bool) (env : Env) (st : Store) :
  batches_disjoint (autoAssign_with candidate) env st.
Proof.
  unfold batches_disjoint. cbn zeta.
  rewrite (proj1 (autoAssign_with_spec candidate env st)). split.
  - eapply sublist_NoDup; [|apply batches_for_keys].
    by apply (grouping_wf [] _); constructor.
  - intros Hnd. destruct (decide (DRIVERS st = [])) as [Hnil|Hd].
    + unfold new_batches. rewrite Hnil, batches_for_no_driver. constructor.
    + destruct (new_batches_exactly candidate env st) as (_ & Hperm & _).
      rewrite (proj1 (autoAssign_with_spec candidate env st)) in Hperm.
      rewrite (Hperm Hd). eapply sublist_NoDup; [exact Hnd|].
      apply fmap_sublist, List_filter_sublist.
Qed.

(** X20. A run of [autoAssign] creates at most one batch per cluster key;
    when order identifiers are unique, no order is listed twice, within a
    batch or by two batches. *)
Theorem created_batches_disjoint (env : Env) (st : Store) :
  batches_disjoint PaidOnly.autoAssign env st
  ∧ batches_disjoint ApprovedOrPaid.autoAssign env st.
Proof. split; apply new_batches_disjoint. Qed.

(** ** The delivery window quoted by [nextETA] *)

Lemma getDay_addDate (i t : Z) : getDay (addDate i t) = (getDay t + i) mod 7.
Proof.
  unfold getDay, addDate, Day. rewrite Z.div_add by done.
  rewrite Z.add_mod_idemp_l by done. f_equal. lia.
Qed.

Lemma addDate_0 (t : Z) : addDate 0 t = t.
Proof. unfold addDate. lia. Qed.

Lemma getDay_cases (t : Z) :
  getDay t = 0 ∨ getDay t = 1 ∨ getDay t = 2 ∨ getDay t = 3
  ∨ getDay t = 4 ∨ getDay t = 5 ∨ getDay t = 6.
Proof.
  unfold getDay. pose proof (Z.mod_pos_bound (Day t + 4) 7). lia.
Qed.

Lemma windows_cases (w : Z * Z) :
  w ∈ windows → w = (8, 10) ∨ w = (12, 14) ∨ w = (16, 18).
Proof.
  unfold windows. intros Hw.
  repeat (apply elem_of_cons in Hw as [->|Hw]; [tauto|]).
  by apply elem_of_nil in Hw.
Qed.

Lemma fmt_not_TBC (rush : bool) (today date : Z) (w : Z * Z) :
  w ∈ windows → fmt rush today date w ≠ "TBC".
Proof.
  intros Hw. unfold fmt. destruct (Day date =? Day today).
  - apply windows_cases in Hw as [->|[->| ->]]; destruct rush;
      intros H; vm_compute in H; discriminate.
  - apply windows_cases in Hw as [->|[->| ->]];
      destruct (Z.to_nat (getDay date)) as [|[|[|[|[|[|[|n]]]]]]];
      intros H; vm_compute in H; discriminate.
Qed.

Lemma nextETA_quoted (now today : Z) (rush : bool) :
  ∃ i w, quoted now i w
         ∧ nextETA now today rush = fmt rush today (addDate i now) w.
Proof.
  assert (Hlater : ∀ i, 1 ≤ i ≤ 3 →
    allowed (getDay now) = false ∨ 18 ≤ getHours now →
    allowed ((getDay now + i) mod 7) = true →
    (∀ j, 0 < j < i → allowed ((getDay now + j) mod 7) = false) →
    quoted now i (8, 10)).
  { intros i Hi Hclosed Hday Hbefore. unfold quoted.
    split_and!; first [lia|by left|by rewrite getDay_addDate|done|idtac].
    intros j Hj. rewrite getDay_addDate. by apply Hbefore. }
  assert (Hnext : allowed (getDay now) = false ∨ 18 ≤ getHours now →
    ∃ i, quoted now i (8, 10)
         ∧ next_allowed_day rush today now 1 7 = fmt rush today (addDate i now) (8, 10)).
  { intros Hclosed. cbn [next_allowed_day]. rewrite !getDay_addDate.
    destruct (getDay_cases now) as [H|[H|[H|[H|[H|[H|H]]]]]];
      rewrite H in Hclosed |- *.
    - exists 3. split; [|done]. apply Hlater; rewrite ?H; try done; try lia.
      intros j Hj. assert (j = 1 ∨ j = 2) as [-> | ->] by lia; done.
    - exists 2. split; [|done]. apply Hlater; rewrite ?H; try done; try lia.
      intros j Hj. assert (j = 1) as -> by lia; done.
    - exists 1. split; [|done]. apply Hlater; rewrite ?H; try done; try lia.
    - exists 1. split; [|done]. apply Hlater; rewrite ?H; try done; try lia.
    - exists 1. split; [|done]. apply Hlater; rewrite ?H; try done; try lia.
    - exists 1. split; [|done]. apply Hlater; rewrite ?H; try done; try lia.
    - exists 1. split; [|done]. apply Hlater; rewrite ?H; try done; try lia. }
  assert (Htoday : ∀ w, w ∈ windows → allowed (getDay now) = true →
    getHours now < w.2 →
    (∀ w', w' ∈ windows → getHours now < w'.2 → w.2 ≤ w'.2) →
    quoted now 0 w).
  { intros w Hw Hday Hopen Hfirst. unfold quoted. rewrite addDate_0.
    split_and!; try done; lia. }
  unfold nextETA. destruct (allowed (getDay now)) eqn:Hday.
  2:{ destruct Hnext as (i & Hq & Heq); [by left|]. by exists i, (8, 10). }
  cbn [List.find windows snd].
  destruct (getHours now <? 10) eqn:H10.
  { exists 0, (8, 10). rewrite addDate_0. split; [|done].
    apply Htoday; cbn [snd]; [by left|done|lia|].
    intros w' Hw' _. apply windows_cases in Hw' as [->|[->| ->]]; cbn; lia. }
  destruct (getHours now <? 14) eqn:H14.
  { exists 0, (12, 14). rewrite addDate_0. split; [|done].
    apply Htoday; cbn [snd]; [right; by left|done|lia|].
    intros w' Hw'. apply windows_cases in Hw' as [->|[->| ->]]; cbn; lia. }
  destruct (getHours now <? 18) eqn:H18.
  { exists 0, (16, 18). rewrite addDate_0. split; [|done].
    apply Htoday; cbn [snd]; [right; right; by left|done|lia|].
    intros w' Hw'. apply windows_cases in Hw' as [->|[->| ->]]; cbn; lia. }
  destruct Hnext as (i & Hq & Heq); [right; lia|]. by exists i, (8, 10).
Qed.

(** X21. [nextETA] always quotes a delivery window and never falls through
    to ["TBC"]: the window is on the first delivery day (Sunday or Wednesday
    to Saturday) from today on that still has an open window, at most three
    days ahead; on the day itself it is the earliest window that has not
    ended, on a later day the morning window. *)
Theorem nextETA_spec (now today : Z) (rush : bool) :
  nextETA now today rush ≠ "TBC"
  ∧ ∃ i w, quoted now i w
           ∧ nextETA now today rush = fmt rush today (addDate i now) w.
Proof.
  destruct (nextETA_quoted now today rush) as (i & w & Hq & Heq). split.
  - rewrite Heq. apply fmt_not_TBC, Hq.
  - by exists i, w.
Qed.

(** ** A cart sent while batches are being made *)

Lemma mark_assigned_snoc (bid : string) (os : list Order.t) (o x : Order.t) :
  Order.orderId o ∈ ids os →
  mark_assigned bid (os ++ [x]) o = mark_assigned bid os o ++ [x].
Proof.
  intros Hin. apply findIndex_in_ids in Hin as [i Hi].
  unfold mark_assigned. rewrite Hi.
  assert (Hlt : (i < length os)%nat).
  { apply findIndex_Some in Hi as (y & Hy & _). by eapply lookup_lt_Some. }
  assert (Hi' : findIndex (has_orderId (Order.orderId o)) (os ++ [x]) = Some i).
  { apply findIndex_Some in Hi as (y & Hy & Hp & Hfirst).
    apply findIndex_Some. exists y. split_and!; [|done|].
    - by rewrite lookup_app_l.
    - intros j z Hj Hz. apply (Hfirst j); [done|].
      rewrite lookup_app_l in Hz by lia. done. }
  rewrite Hi'. cbn. by rewrite alter_app_l.
Qed.

Lemma mark_group_snoc (bid : string) (group os : list Order.t) (x : Order.t) :
  Forall (λ o, Order.orderId o ∈ ids os) group →
  foldl (mark_assigned bid) (os ++ [x]) group
  = foldl (mark_assigned bid) os group ++ [x].
Proof.
  revert os. induction group as [|o group IH]; intros os Hall; [done|].
  apply Forall_cons in Hall as [Ho Hall]. cbn [foldl].
  rewrite mark_assigned_snoc by done. apply IH.
  by rewrite ids_mark_assigned.
Qed.

Lemma assign_loop_snoc (env : Env) (drivers : list Driver.t) (x : Order.t)
    (byKey : ByKey) (acc : Assigning) :
  Forall (λ kg : string * list Order.t,
            Forall (λ o, Order.orderId o ∈ ids (a_orders acc)) kg.2) byKey →
  foldl (assign_group env drivers)
        (mkAssigning (a_orders acc ++ [x]) (a_batches acc) (a_created acc)) byKey
  = let r := foldl (assign_group env drivers) acc byKey in
    mkAssigning (a_orders r ++ [x]) (a_batches r) (a_created r).
Proof.
  revert acc. induction byKey as [|[k group] rest IH]; intros acc Hall; [done|].
  apply Forall_cons in Hall as [Hg Hall]. cbn [snd] in Hg. cbn zeta.
  cbn [foldl].
  destruct group as [|g0 group'].
  { rewrite !assign_group_skip by done. by apply IH. }
  destruct (pickDriverForZone drivers (Order.zone g0)) as [driver|] eqn:Hpick.
  2:{ rewrite !assign_group_skip by done. by apply IH. }
  rewrite !(assign_group_batch _ _ _ _ _ _ _ Hpick). cbn zeta.
  cbn [a_orders a_batches a_created].
  set (batch := make_batch env (length (a_created acc)) driver k g0 (g0 :: group')).
  rewrite mark_group_snoc by done.
  apply (IH (mkAssigning
    (foldl (mark_assigned (Batch.id batch)) (a_orders acc) (g0 :: group'))
    (a_batches acc ++ [batch]) (a_created acc ++ [batch]))).
  cbn [a_orders]. rewrite (proj1 (mark_group_frame batch (g0 :: group') (a_orders acc))).
  done.
Qed.

Lemma autoAssign_with_snoc (candidate : Order.t → bool) (env : Env) (st : Store)
    (x : Order.t) :
  candidate x = false →
  autoAssign_with candidate env
    (mkStore (ORDERS st ++ [x]) (DRIVERS st) (BATCHES st) (PAYOUTS st))
  = let r := autoAssign_with candidate env st in
    (r.1, mkStore (ORDERS r.2 ++ [x]) (DRIVERS r.2) (BATCHES r.2) (PAYOUTS r.2)).
Proof.
  intros Hx. unfold autoAssign_with. cbn [ORDERS DRIVERS BATCHES PAYOUTS fst snd].
  rewrite List.filter_app. cbn [List.filter]. rewrite Hx, app_nil_r.
  rewrite (assign_loop_snoc env (DRIVERS st) x _
             (mkAssigning (ORDERS st) (BATCHES st) [])).
  - done.
  - apply Forall_forall. intros [k g] Hg. apply Forall_forall. intros o Ho.
    destruct (group_members candidate st k g o Hg Ho) as (Hin & _).
    cbn [a_orders]. unfold ids. by apply list_elem_of_fmap_2.
Qed.

(** X22. A cart sent while batches are made changes nothing for either: as
    long as the status given to the new order is neither [approved] nor
    [paid], sending the cart and then running [autoAssign] gives the same
    batches and the same store as running [autoAssign] and then sending the
    cart; the new order stays unassigned, also when its identifier is one
    already taken. *)
Theorem makeWhatsAppLink_autoAssign (status : string) (env : Env) (now : Z)
    (zone : string) (baseFee rushFee : Q) (address : option string) (st : Store) :
  status ≠ "approved" → status ≠ "paid" →
  commutes_with_order PaidOnly.autoAssign "awaiting_payment"
    env now zone baseFee rushFee address st
  ∧ commutes_with_order ApprovedOrPaid.autoAssign status
      env now zone baseFee rushFee address st.
Proof.
  intros Ha Hp. unfold commutes_with_order, makeWhatsAppLink. cbn zeta. cbn [snd].
  split.
  - unfold PaidOnly.autoAssign. by rewrite autoAssign_with_snoc.
  - unfold ApprovedOrPaid.autoAssign. rewrite autoAssign_with_snoc; [done|].
    unfold ApprovedOrPaid.candidate. cbn [Order.status].
    rewrite !bool_decide_eq_false_2 by done. done.
Qed.

Lemma makeWhatsAppLink_autoAssign_witness :
  commutes_with_order PaidOnly.autoAssign "awaiting_payment"
    env_sample 1700000123456 "A" 25 0 (Some "12 Main St") store_sample
  ∧ commutes_with_order ApprovedOrPaid.autoAssign "pending"
      env_sample 1700000123456 "A" 25 0 (Some "12 Main St") store_sample.
Proof. apply (makeWhatsAppLink_autoAssign "pending"); discriminate. Defined.

(** ** Identifiers made from the clock *)

Lemma string_app_cons (x : ascii) (a b : string) :
  String x a +:+ b = String x (a +:+ b).
Proof. reflexivity. Qed.

Lemma string_app_assoc (a b c : string) : (a +:+ b) +:+ c = a +:+ (b +:+ c).
Proof.
  induction a as [|x a IH]; [done|]. rewrite !string_app_cons. by f_equal.
Qed.

Lemma string_length_app (a b : string) :
  String.length (a +:+ b) = (String.length a + String.length b)%nat.
Proof.
  induction a as [|x a IH]; [done|]. rewrite string_app_cons.
  cbn [String.length]. by rewrite IH.
Qed.

Lemma substring_all (s : string) : String.substring 0 (String.length s) s = s.
Proof. induction s as [|x s IH]; cbn; [done|]. by f_equal. Qed.

Lemma substring_app_r (a s : string) :
  String.substring (String.length a) (String.length s) (a +:+ s) = s.
Proof.
  induction a as [|x a IH]; [apply substring_all|].
  rewrite string_app_cons. cbn [String.length String.substring]. apply IH.
Qed.

Lemma slice_last_app (n : nat) (a s : string) :
  String.length s = n → slice_last n (a +:+ s) = s.
Proof.
  intros <-. unfold slice_last. rewrite string_length_app.
  replace (String.length a + String.length s - String.length s)%nat
    with (String.length a) by lia.
  apply substring_app_r.
Qed.

Lemma pretty_N_go_app (x : N) (s : string) :
  pretty_N_go x s = pretty_N_go x EmptyString +:+ s.
Proof.
  revert s. induction (N.lt_wf_0 x) as [x _ IH]; intros s.
  assert (x = 0 ∨ 0 < x)%N as [->|Hx] by lia.
  - by rewrite !pretty_N_go_0.
  - rewrite (pretty_N_go_step x s), (pretty_N_go_step x EmptyString) by done.
    assert (Hlt : (x `div` 10 < x)%N) by (by apply N.div_lt).
    rewrite (IH _ Hlt (String (pretty_N_char (x `mod` 10)) s)).
    rewrite (IH _ Hlt (String (pretty_N_char (x `mod` 10)) EmptyString)).
    by rewrite string_app_assoc.
Qed.

Lemma pretty_N_last_six (x : N) :
  (100000 ≤ x)%N →
  pretty x = pretty_N_go (x / 1000000) EmptyString +:+ last_six x.
Proof.
  intros Hx. unfold pretty, pretty_N. rewrite decide_False by lia.
  assert (Hdiv : ∀ a b, (0 < b → b ≤ a → 0 < a / b)%N).
  { intros a b Hb Hab. apply N.div_str_pos. lia. }
  rewrite (pretty_N_go_step x) by lia.
  rewrite (pretty_N_go_step (x `div` 10)) by (apply Hdiv; lia).
  rewrite !N.Div0.div_div. change (10 * 10)%N with 100%N.
  rewrite (pretty_N_go_step (x `div` 100)) by (apply Hdiv; lia).
  rewrite !N.Div0.div_div. change (100 * 10)%N with 1000%N.
  rewrite (pretty_N_go_step (x `div` 1000)) by (apply Hdiv; lia).
  rewrite !N.Div0.div_div. change (1000 * 10)%N with 10000%N.
  rewrite (pretty_N_go_step (x `div` 10000)) by (apply Hdiv; lia).
  rewrite !N.Div0.div_div. change (10000 * 10)%N with 100000%N.
  rewrite (pretty_N_go_step (x `div` 100000)) by (apply Hdiv; lia).
  rewrite !N.Div0.div_div. change (100000 * 10)%N with 1000000%N.
  by rewrite pretty_N_go_app.
Qed.

Lemma last_six_period (x k : N) : last_six (x + k * 1000000) = last_six x.
Proof.
  assert (Hdigit : ∀ c m : N, (m * c = 100000 → c ≠ 0 →
            (x + k * 1000000) / c mod 10 = x / c mod 10)%N).
  { intros c m Hm Hc.
    replace (k * 1000000)%N with (k * 10 * (m * c))%N by (rewrite Hm; lia).
    rewrite N.mul_assoc, N.div_add by done.
    rewrite <- (N.mul_assoc k), (N.mul_comm 10 m), N.mul_assoc.
    by rewrite N.Div0.mod_add. }
  unfold last_six.
  rewrite (Hdigit 100000%N 1%N), (Hdigit 10000%N 10%N), (Hdigit 1000%N 100%N),
    (Hdigit 100%N 1000%N), (Hdigit 10%N 10000%N) by done.
  replace (k * 1000000)%N with (k * 100000 * 10)%N by lia.
  by rewrite N.Div0.mod_add.
Qed.

Lemma slice_last_pretty (now : Z) :
  100000 ≤ now → slice_last 6 (pretty now) = last_six (Z.to_N now).
Proof.
  intros Hnow. destruct now as [|p|p]; try lia.
  change (pretty (Z.pos p)) with (pretty (N.pos p)).
  change (Z.to_N (Z.pos p)) with (N.pos p).
  rewrite pretty_N_last_six by lia. by apply slice_last_app.
Qed.

Lemma slice_last_pretty_period (now k : Z) :
  100000 ≤ now → 0 ≤ k →
  slice_last 6 (pretty (now + k * 1000000)) = slice_last 6 (pretty now).
Proof.
  intros Hnow Hk. rewrite !slice_last_pretty by lia.
  rewrite <- (last_six_period (Z.to_N now) (Z.to_N k)). f_equal. lia.
Qed.

(** X23. Identifiers keep the six lowest digits of the millisecond clock
    and nothing else, so they repeat every 1,000,000 ms: once the clock has
    six digits, [uuid] gives the same order identifier at [now] and a whole
    number of such periods later, and [addDriver] the same driver
    identifier. *)
Theorem uuid_period (now k : Z) (name phone zone name' phone' zone' : string)
    (st st' : Store) :
  100000 ≤ now → 0 ≤ k →
  uuid (now + k * 1000000) = uuid now
  ∧ Driver.id (addDriver (now + k * 1000000) name' phone' zone' st').1
    = Driver.id (addDriver now name phone zone st).1.
Proof.
  intros Hnow Hk. unfold uuid, addDriver. cbn [fst Driver.id].
  by rewrite slice_last_pretty_period.
Qed.

Lemma uuid_period_witness :
  uuid (1700000123456 + 3 * 1000000) = uuid 1700000123456
  ∧ Driver.id (addDriver (1700000123456 + 3 * 1000000) "B" "2" "Z2" store_sample).1
    = Driver.id (addDriver 1700000123456 "A" "1" "Z1" store_sample).1.
Proof. apply uuid_period; lia. Defined.

(** X24. Nothing in [makeWhatsAppLink] keeps order identifiers apart: two
    carts sent a whole number of 1,000,000 ms periods apart, or within the
    same millisecond, leave two orders with the same identifier in the
    store, whatever the store held. *)
Theorem makeWhatsAppLink_repeats (status status' : string) (now k : Z)
    (zone zone' : string) (baseFee rushFee baseFee' rushFee' : Q)
    (address address' : option string) (st : Store) :
  100000 ≤ now → 0 ≤ k →
  ¬ NoDup (ids (ORDERS (two_carts status status' now (now + k * 1000000)
                          zone zone' baseFee rushFee baseFee' rushFee'
                          address address' st))).
Proof.
  intros Hnow Hk. unfold two_carts, makeWhatsAppLink, uuid.
  cbn [snd ORDERS]. rewrite slice_last_pretty_period by done.
  unfold ids. rewrite <- app_assoc, fmap_app. cbn [fmap list_fmap Order.orderId app].
  intros Hnd. apply NoDup_app in Hnd as (_ & _ & Hnd).
  apply NoDup_cons in Hnd as [Hnotin _]. apply Hnotin. by left.
Qed.

(** The stores with a repeated identifier are stores the code leaves:
    two carts sent to [yithume-lite-pro.js] 1,000,000 ms apart, the second
    with an [initialStatus] of paid. *)
Lemma store_repeat_reachable :
  two_carts "paid" "paid" 1700000123456 (1700000123456 + 1 * 1000000)
            "A" "A" 25 0 25 0 (Some "12 Main St") (Some "7 Oak Ave")
            (mkStore [] [driver_sample] [] [])
  = store_repeat
  ∧ two_carts "pending" "paid" 1700000123456 (1700000123456 + 1 * 1000000)
              "A" "A" 25 0 25 0 (Some "12 Main St") (Some "7 Oak Ave")
              (mkStore [] [driver_sample] [] [])
    = store_repeat_pending.
Proof. split; vm_compute; reflexivity. Qed.

Lemma makeWhatsAppLink_repeats_witness :
  ¬ NoDup (ids (ORDERS (two_carts "pending" "pending"
                          1700000123456 (1700000123456 + 1 * 1000000)
                          "A" "B" 25 0 35 30 None None store_sample))).
Proof. apply makeWhatsAppLink_repeats; lia. Defined.

(** ** Assign, then complete *)

Lemma findIndex_NoDup {A B} `{EqDecision B} (f : A → B) (l : list A)
    (i : nat) (x : A) :
  NoDup (f <$> l) → l !! i = Some x →
  findIndex (λ y, bool_decide (f y = f x)) l = Some i.
Proof.
  intros Hnd Hi. apply findIndex_Some. exists x. split_and!; [done| |].
  - by apply bool_decide_eq_true.
  - intros j y Hj Hy. apply bool_decide_eq_false. intros Heq.
    assert (j = i) as -> by
      (apply (NoDup_lookup _ _ _ (f x) Hnd);
       rewrite list_lookup_fmap; [rewrite Hy; cbn; by f_equal|by rewrite Hi]).
    lia.
Qed.

Lemma concat_NoDup_same {A} (ls : list (list A)) (i i' : nat) (l l' : list A) (x : A) :
  NoDup (concat ls) → ls !! i = Some l → ls !! i' = Some l' →
  x ∈ l → x ∈ l' → i = i'.
Proof.
  assert (Hin : ∀ (ls : list (list A)) k l0, ls !! k = Some l0 → x ∈ l0 → x ∈ concat ls).
  { intros ls0 k l0 Hk Hx. apply list_elem_of_In, in_concat. exists l0.
    split; apply list_elem_of_In; [by eapply list_elem_of_lookup_2|done]. }
  revert i i'. induction ls as [|l0 ls IH]; intros i i' Hnd Hi Hi' Hx Hx'; [done|].
  cbn [concat] in Hnd. apply NoDup_app in Hnd as (_ & Hdisj & Hnd).
  destruct i as [|i], i' as [|i']; cbn in Hi, Hi'; simplify_eq.
  - done.
  - destruct (Hdisj x Hx). by eapply Hin.
  - destruct (Hdisj x Hx'). by eapply Hin.
  - f_equal. by apply IH.
Qed.

Section assign_then_complete.
Context (candidate : Order.t → bool) (env : Env) (now : Z) (st : Store) (b : Batch.t).
Hypothesis Hnd : NoDup (ids (ORDERS st)).
Hypothesis Hb : b ∈ new_batches candidate env st.

Lemma created_order_assigned (o : Order.t) :
  Order.orderId o ∈ Batch.orders b →
  after_batches (new_batches candidate env st) o = Order.assign (Batch.id b) o.
Proof.
  intros Hin.
  destruct (after_batches_cases (new_batches candidate env st) o)
    as [[_ Hnone]|(b' & Hb' & Hin' & ->)].
  { by destruct (Hnone b Hb). }
  assert (b' = b) as ->; [|done].
  destruct (new_batches_disjoint candidate env st) as [_ Hdisj].
  cbn zeta in Hdisj. rewrite (proj1 (autoAssign_with_spec candidate env st)) in Hdisj.
  specialize (Hdisj Hnd).
  pose proof Hb as Hb0.
  apply list_elem_of_lookup in Hb0 as [i Hi].
  apply list_elem_of_lookup in Hb' as [i' Hi'].
  assert (i' = i) as ->; [|congruence].
  apply (concat_NoDup_same _ _ _ (Batch.orders b') (Batch.orders b)
           (Order.orderId o) Hdisj);
    rewrite ?list_lookup_fmap, ?Hi, ?Hi'; done.
Qed.

Lemma completes_created_with :
  completes_created (autoAssign_with candidate) env now st b.
Proof.
  unfold completes_created. rewrite (autoAssign_with_unique _ _ _ Hnd).
  cbn zeta. cbn [fst snd BATCHES]. intros _ Hbid.
  set (newb := new_batches candidate env st) in *.
  set (st1 := mkStore _ _ _ _).
  assert (Hi : ∃ i, (BATCHES st ++ newb) !! i = Some b).
  { apply list_elem_of_lookup, elem_of_app. by right. }
  destruct Hi as [i Hi].
  assert (Hfi : findIndex (has_batch_id (Batch.id b)) (BATCHES st1) = Some i).
  { by apply (findIndex_NoDup Batch.id). }
  destruct (completeBatch_found now (Batch.id b) st1 i Hfi) as (b0 & Hb0 & _ & ->).
  cbn [BATCHES st1] in Hb0. assert (b0 = b) as -> by congruence.
  cbn [fst snd ORDERS DRIVERS BATCHES PAYOUTS st1].
  split_and!; [done|by exists i|done|done|].
  intros j o Hj.
  assert (Hj' : (after_batches newb <$> ORDERS st) !! j = Some (after_batches newb o)).
  { by rewrite list_lookup_fmap, Hj. }
  rewrite (foldl_mark_delivered_lookup _ _ j _ Hj').
  assert (Hnd' : NoDup (ids (after_batches newb <$> ORDERS st))).
  { by rewrite ids_after_batches. }
  destruct (decide (Order.orderId o ∈ Batch.orders b)) as [Hin|Hout].
  - rewrite decide_True.
    + by rewrite created_order_assigned.
    + unfold found_at. apply Exists_exists. exists (Order.orderId o). split; [done|].
      rewrite <- (after_batches_orderId newb o). by apply findIndex_unique.
  - rewrite decide_False; [done|].
    unfold found_at. rewrite Exists_exists. intros (oid & Hin & Hfo).
    apply findIndex_Some in Hfo as (y & Hy & Hp & _).
    apply has_orderId_true in Hp. rewrite Hj' in Hy. simplify_eq.
    by rewrite after_batches_orderId in Hin.
Qed.
End assign_then_complete.

(** X25. Assign, then complete: with unique order identifiers, and batch
    identifiers unique in the store after the run, [completeBatch] called
    for a batch that [autoAssign] has just created succeeds and completes
    that batch; every order the batch lists ends delivered and carries its
    identifier, and every other order stays as the run left it. *)
Theorem autoAssign_then_completeBatch (env : Env) (now : Z) (st : Store) (b : Batch.t) :
  NoDup (ids (ORDERS st)) →
  completes_created PaidOnly.autoAssign env now st b
  ∧ completes_created ApprovedOrPaid.autoAssign env now st b.
Proof.
  intros Hnd. split; unfold completes_created; cbn zeta; intros Hb Hbid.
  - apply (completes_created_with PaidOnly.candidate env now st b Hnd);
      [|exact Hb|exact Hbid].
    by rewrite <- (proj1 (autoAssign_with_spec PaidOnly.candidate env st)).
  - apply (completes_created_with ApprovedOrPaid.candidate env now st b Hnd);
      [|exact Hb|exact Hbid].
    by rewrite <- (proj1 (autoAssign_with_spec ApprovedOrPaid.candidate env st)).
Qed.

Lemma autoAssign_then_completeBatch_witness :
  let r := PaidOnly.autoAssign env_sample store_sample in
  let c := completeBatch 1700000200000 (Batch.id batch_sample) r.2 in
  c.1 = true
  ∧ ORDERS c.2 !! 0%nat
    = Some (Order.deliver (Order.assign (Batch.id batch_sample) order_main_1))
  ∧ ORDERS c.2 !! 2%nat = Some order_approved.
Proof.
  cbn zeta.
  assert (Hnd : NoDup (ids (ORDERS store_sample))).
  { apply (bool_decide_unpack _). vm_compute. exact I. }
  destruct (proj1 (autoAssign_then_completeBatch env_sample 1700000200000
                     store_sample batch_sample Hnd)) as (Hok & _ & _ & _ & Hord).
  - apply list_elem_of_lookup. exists 0%nat. vm_compute. reflexivity.
  - apply (bool_decide_unpack _). vm_compute. exact I.
  - split_and!.
    + exact Hok.
    + rewrite (Hord 0%nat order_main_1 eq_refl). vm_compute. reflexivity.
    + rewrite (Hord 2%nat order_approved eq_refl). vm_compute. reflexivity.
Defined.

(** ** The normal form of an address *)

Lemma is_space_lower (c : ascii) : is_space (lower_char c) = is_space c.
Proof. destruct c as [[] [] [] [] [] [] [] []]; reflexivity. Qed.

Lemma lower_char_idem (c : ascii) : lower_char (lower_char c) = lower_char c.
Proof. destruct c as [[] [] [] [] [] [] [] []]; reflexivity. Qed.

Lemma toLowerCase_idem (s : string) : toLowerCase (toLowerCase s) = toLowerCase s.
Proof.
  induction s as [|c s IH]; [done|]. cbn [toLowerCase].
  by rewrite lower_char_idem, IH.
Qed.

Lemma replace_ws_from_lower (b : bool) (s : string) :
  replace_ws_from b (toLowerCase s) = toLowerCase (replace_ws_from b s).
Proof.
  revert b. induction s as [|c s IH]; intros b; [done|].
  cbn [toLowerCase replace_ws_from]. rewrite is_space_lower.
  destruct (is_space c), b; cbn [toLowerCase]; rewrite IH; done.
Qed.

Lemma trimStart_lower (s : string) :
  trimStart (toLowerCase s) = toLowerCase (trimStart s).
Proof.
  induction s as [|c s IH]; [done|].
  cbn [toLowerCase trimStart]. rewrite is_space_lower.
  by destruct (is_space c).
Qed.

Lemma trimEnd_lower (s : string) :
  trimEnd (toLowerCase s) = toLowerCase (trimEnd s).
Proof.
  induction s as [|c s IH]; [done|].
  cbn [toLowerCase trimEnd]. rewrite IH, is_space_lower.
  destruct (trimEnd s); cbn [toLowerCase]; [by destruct (is_space c)|done].
Qed.

Lemma squeezed_replace (b : bool) (s : string) :
  squeezed b (replace_ws_from b s) = true.
Proof.
  revert b. induction s as [|c s IH]; intros b; [done|].
  cbn [replace_ws_from]. destruct (is_space c) eqn:Hc.
  - destruct b; [apply IH|]. cbn [squeezed].
    change (is_space " ") with true. cbn. apply IH.
  - cbn [squeezed]. rewrite Hc. apply IH.
Qed.

Lemma squeezed_fixed (b : bool) (s : string) :
  squeezed b s = true → replace_ws_from b s = s.
Proof.
  revert b. induction s as [|c s IH]; intros b; [done|].
  cbn [squeezed replace_ws_from]. destruct (is_space c).
  - intros [[Hc Hb]%andb_prop Hs]%andb_prop.
    apply Ascii.eqb_eq in Hc as ->. destruct b; [discriminate|].
    by rewrite IH.
  - intros Hs. by rewrite IH.
Qed.

Lemma squeezed_weaken (b : bool) (s : string) :
  squeezed b s = true → squeezed false s = true.
Proof.
  destruct s as [|c s]; [done|]. cbn [squeezed]. destruct (is_space c); [|done].
  intros [[Hc _]%andb_prop Hs]%andb_prop. by rewrite Hc, Hs.
Qed.

Lemma squeezed_trimStart (b : bool) (s : string) :
  squeezed b s = true → squeezed false (trimStart s) = true.
Proof.
  revert b. induction s as [|c s IH]; intros b; [done|].
  cbn [squeezed trimStart]. destruct (is_space c) eqn:Hc.
  - intros [_ Hs]%andb_prop. by eapply IH.
  - intros Hs. cbn [squeezed]. by rewrite Hc.
Qed.

Lemma squeezed_trimEnd (b : bool) (s : string) :
  squeezed b s = true → squeezed b (trimEnd s) = true.
Proof.
  revert b. induction s as [|c s IH]; intros b; [done|].
  cbn [squeezed trimEnd]. destruct (is_space c) eqn:Hc.
  - intros [Hcb Hs]%andb_prop. specialize (IH true Hs).
    destruct (trimEnd s) as [|d t]; [done|].
    cbn [squeezed] in *. by rewrite Hc, Hcb, IH.
  - intros Hs. specialize (IH false Hs).
    destruct (trimEnd s) as [|d t]; cbn [squeezed] in *; by rewrite Hc.
Qed.

Lemma no_lead_trimStart (s : string) : no_lead (trimStart s) = true.
Proof.
  induction s as [|c s IH]; [done|]. cbn [trimStart].
  destruct (is_space c) eqn:Hc; [done|]. cbn. by rewrite Hc.
Qed.

Lemma no_lead_trimEnd (s : string) :
  no_lead s = true → no_lead (trimEnd s) = true.
Proof.
  destruct s as [|c s]; [done|]. cbn [no_lead trimEnd]. intros Hc.
  destruct (trimEnd s); [|done].
  apply negb_true_iff in Hc. rewrite Hc. cbn. by rewrite Hc.
Qed.

Lemma trimStart_no_lead (s : string) : no_lead s = true → trimStart s = s.
Proof.
  destruct s as [|c s]; [done|]. cbn. intros Hc%negb_true_iff. by rewrite Hc.
Qed.

Lemma trimEnd_idem (s : string) : trimEnd (trimEnd s) = trimEnd s.
Proof.
  induction s as [|c s IH]; [done|]. cbn [trimEnd].
  destruct (trimEnd s) as [|d t] eqn:Ht.
  - destruct (is_space c) eqn:Hc; [done|]. cbn. by rewrite Hc.
  - cbn [trimEnd] in IH |- *. by rewrite IH.
Qed.

Lemma trim_idem (s : string) : trim (trim s) = trim s.
Proof.
  unfold trim.
  rewrite (trimStart_no_lead (trimEnd (trimStart s))).
  - apply trimEnd_idem.
  - apply no_lead_trimEnd, no_lead_trimStart.
Qed.

Lemma normal_form_squeezed (a : string) :
  squeezed false (trim (replace_ws a)) = true.
Proof.
  unfold trim, replace_ws.
  apply squeezed_trimEnd. eapply squeezed_trimStart. apply squeezed_replace.
Qed.

Lemma normal_form_fixed (a : string) :
  let n := trim (replace_ws (toLowerCase a)) in
  trim (replace_ws (toLowerCase n)) = n.
Proof.
  cbn zeta.
  assert (Hlow : toLowerCase (trim (replace_ws (toLowerCase a)))
                 = trim (replace_ws (toLowerCase a))).
  { unfold trim, replace_ws.
    rewrite <- trimEnd_lower, <- trimStart_lower, <- replace_ws_from_lower.
    by rewrite toLowerCase_idem. }
  rewrite Hlow. unfold replace_ws at 1.
  rewrite squeezed_fixed by apply normal_form_squeezed.
  apply trim_idem.
Qed.

(** X26. The normal form [clusterKey] compares is a fixed point of the
    normalisation: it holds white space only as single blanks between words,
    and an order whose address is replaced by its normal form keeps its
    normal form and its cluster key. *)
Theorem clusterKey_normal_form (o : Order.t) :
  let o' := with_address (Some (normalized_address o)) o in
  squeezed false (normalized_address o) = true
  ∧ no_lead (normalized_address o) = true
  ∧ trimEnd (normalized_address o) = normalized_address o
  ∧ normalized_address o' = normalized_address o
  ∧ clusterKey o' = clusterKey o.
Proof.
  cbn zeta. unfold clusterKey, normalized_address, with_address.
  cbn [Order.customer_address Order.zone default from_option].
  set (a := default EmptyString (Order.customer_address o)).
  change (from_option id EmptyString (Order.customer_address o)) with a.
  split_and!.
  - apply normal_form_squeezed.
  - unfold trim. apply no_lead_trimEnd, no_lead_trimStart.
  - unfold trim. apply trimEnd_idem.
  - unfold id. apply normal_form_fixed.
  - unfold id. by rewrite (normal_form_fixed a).
Qed.
